(** * kanji-go-web: the study-domain logic of [src/App.tsx]

    A shallow embedding of the record parser, the reading-annotation
    functions, the catalog filter and the quiz session handlers of the React
    component, with the properties of the specification settled against it.

    JavaScript strings are sequences of UTF-16 code units; they are modelled
    as lists of code units ([N]), so that [split], [trim], [includes] and the
    regular expressions act on the same units as in the source. *)

From Stdlib Require Import String Ascii.
From Equations Require Import Equations.
From stdpp Require Import base option list gmap.

(** ** Strings *)

Module Js.

Abbreviation jstring := (list N).

(** Literals are written in UTF-8 in this file; [utf16] turns the bytes of a
    literal into code units (one to three bytes give one unit, four bytes a
    surrogate pair). *)
Definition cont (b : N) : N := N.land b 63.

Fixpoint utf16_of_bytes (bs : list N) : jstring :=
  match bs with
  | [] => []
  | b0 :: r0 =>
      if (b0 <? 128)%N then b0 :: utf16_of_bytes r0
      else match r0 with
      | [] => [b0]
      | b1 :: r1 =>
          if (b0 <? 224)%N
          then N.lor (N.shiftl (N.land b0 31) 6) (cont b1) :: utf16_of_bytes r1
          else match r1 with
          | [] => [b0; b1]
          | b2 :: r2 =>
              if (b0 <? 240)%N
              then N.lor (N.shiftl (N.land b0 15) 12)
                     (N.lor (N.shiftl (cont b1) 6) (cont b2)) :: utf16_of_bytes r2
              else match r2 with
              | [] => [b0; b1; b2]
              | b3 :: r3 =>
                  let cp := N.lor (N.shiftl (N.land b0 7) 18)
                              (N.lor (N.shiftl (cont b1) 12)
                                 (N.lor (N.shiftl (cont b2) 6) (cont b3))) in
                  let v := (cp - 65536)%N in
                  (55296 + N.shiftr v 10)%N :: (56320 + N.land v 1023)%N
                    :: utf16_of_bytes r3
              end
          end
      end
  end.

Definition utf16 (s : string) : jstring :=
  utf16_of_bytes (N_of_ascii <$> list_ascii_of_string s).

(** Code units the source names. *)
Definition apostrophe : N := 39.      (* ' *)
Definition dquote : N := 34.
Definition comma : N := 44.           (* , *)
Definition slash : N := 47.           (* / *)
Definition touten : N := 0x3001.      (* the full-width comma *)

(** [WhiteSpace] and [LineTerminator] of ECMAScript: what [trim] strips and
    what the class [\s] matches. *)
Definition isWhiteSpace (c : N) : bool :=
  bool_decide (c ∈ [9; 10; 11; 12; 13; 32; 160; 0x1680; 0x2028; 0x2029;
                    0x202F; 0x205F; 0x3000; 0xFEFF]%N)
  || ((0x2000 <=? c)%N && (c <=? 0x200A)%N).

Fixpoint trimStart (s : jstring) : jstring :=
  match s with
  | c :: t => if isWhiteSpace c then trimStart t else s
  | [] => []
  end.

Definition trimEnd (s : jstring) : jstring := reverse (trimStart (reverse s)).

Definition trim (s : jstring) : jstring := trimEnd (trimStart s).

(** [s.startsWith(p)] *)
Fixpoint startsWith (p s : jstring) : bool :=
  match p, s with
  | [], _ => true
  | a :: p', b :: s' => bool_decide (a = b) && startsWith p' s'
  | _ :: _, [] => false
  end.

(** [s.includes(sub)]: [sub] occurs at some index of [s]. *)
Fixpoint includes (s sub : jstring) : bool :=
  startsWith sub s ||
  match s with
  | [] => false
  | _ :: t => includes t sub
  end.

(** [s.split(sep)] for a separator of one code unit: always at least one
    piece. *)
Fixpoint split (sep : N) (s : jstring) : list jstring :=
  match s with
  | [] => [[]]
  | c :: t =>
      if bool_decide (c = sep) then [] :: split sep t
      else match split sep t with
           | piece :: more => (c :: piece) :: more
           | [] => [[c]]
           end
  end.

(** [a || b] on strings: the empty string is falsy. *)
Definition orElse (a b : jstring) : jstring :=
  match a with [] => b | _ => a end.

End Js.
Import Js.

(** ** The reading annotation

    Both regular expressions of the source, ['([^']+)'] and ['[^']*'], have the
    same shape: an apostrophe, a greedy run of other code units, an
    apostrophe. They differ in whether the run may be empty. *)

(** The run [[^']*] and the closing apostrophe, read from the unit after the
    opening one: the run and what follows the closing apostrophe. The run
    cannot stop earlier, since only an apostrophe can follow it. *)
Fixpoint closing (s : jstring) : option (jstring * jstring) :=
  match s with
  | [] => None
  | c :: t =>
      if bool_decide (c = apostrophe) then Some ([], t)
      else match closing t with
           | Some (run, rest) => Some (c :: run, rest)
           | None => None
           end
  end.

(** One match of a regular expression: the text between the place the search
    started ([lastIndex]) and the match ([index]), the first capture group,
    and the text from the new [lastIndex] on. *)
Record Match := { before : jstring; group1 : jstring; after : jstring }.

(** A match that starts at the first unit of [s]; [oneOrMore] is [true] for
    ['([^']+)'] and [false] for ['[^']*']. *)
Definition matchHere (oneOrMore : bool) (s : jstring) : option Match :=
  match s with
  | c :: t =>
      if bool_decide (c = apostrophe) then
        match closing t with
        | Some (run, rest) =>
            if oneOrMore && bool_decide (run = []) then None
            else Some {| before := []; group1 := run; after := rest |}
        | None => None
        end
      else None
  | [] => None
  end.

(** [regex.exec]: the leftmost match at or after the start of [s]. *)
Fixpoint exec (oneOrMore : bool) (s : jstring) : option Match :=
  match matchHere oneOrMore s with
  | Some m => Some m
  | None =>
      match s with
      | [] => None
      | c :: t =>
          match exec oneOrMore t with
          | Some m => Some {| before := c :: before m; group1 := group1 m; after := after m |}
          | None => None
          end
      end
  end.

(** A value together with the equation that names it, for the recursive
    call below, whose argument comes out of [exec]. *)
Definition inspect {A : Type} (a : A) : {b : A | a = b} := exist _ a eq_refl.

(** The successive matches of a global regular expression: [exec] called
    again and again, each search starting where the last match ended, until
    it answers [null]. The loop of [formatReadingWithOkurigana] does this
    itself, [replace] and [match] do it inside. *)
Equations? execAll (oneOrMore : bool) (s : jstring) : list Match
  by wf (length s) lt :=
execAll oneOrMore s with inspect (exec oneOrMore s) := {
  | exist _ (Some m) Hm => m :: execAll oneOrMore (after m)
  | exist _ None _ => [] }.
Proof.
  clear execAll.
  revert m Hm; induction s as [|c t IH]; intros m Hm; [by destruct oneOrMore|].
  cbn [exec] in Hm.
  destruct (matchHere oneOrMore (c :: t)) as [m'|] eqn:Hh.
  - injection Hm as <-. cbn in Hh. case_bool_decide; [|done].
    destruct (closing t) as [[run rest]|] eqn:Hc; [|done].
    destruct (oneOrMore && bool_decide (run = [])); [done|].
    injection Hh as <-. cbn.
    clear -Hc. revert run rest Hc.
    induction t as [|d t IHt]; intros run rest Hc; [done|].
    cbn in Hc. case_bool_decide.
    + injection Hc as _ <-. cbn; lia.
    + destruct (closing t) as [[run' rest']|]; [|done].
      injection Hc as _ <-. specialize (IHt _ _ eq_refl). cbn in *; lia.
  - destruct (exec oneOrMore t) as [m'|]; [|done].
    injection Hm as <-. specialize (IH _ eq_refl). cbn in *; lia.
Qed.

(** What is left of [s] after the last of the matches [ms]:
    [s.substring(lastIndex)]. *)
Definition remainder (s : jstring) (ms : list Match) : jstring :=
  match last ms with
  | Some m => after m
  | None => s
  end.

(** A [<span>] of the rendered reading; the emphasized ones are those the
    source colours. Their React keys are their positions in the list. *)
Record Segment := { text : jstring; emphasized : bool }.

Definition plainSpan (t : jstring) : list Segment :=
  match t with
  | [] => []
  | _ => [{| text := t; emphasized := false |}]
  end.

(** [formatReadingWithOkurigana]: for each match of ['([^']+)'] a span of
    plain text when [match.index > lastIndex], then the emphasized span of the
    capture group; after the loop a span of plain text when
    [lastIndex < reading.length]. *)
Definition formatReadingWithOkurigana (reading : jstring) : list Segment :=
  let ms := execAll true reading in
  (m ← ms; plainSpan (before m) ++ [{| text := group1 m; emphasized := true |}])
    ++ plainSpan (remainder reading ms).

(** [s.replace(re, '')] for a global [re]: the text between the matches. *)
Definition removeMatches (oneOrMore : bool) (s : jstring) : jstring :=
  let ms := execAll oneOrMore s in
  (m ← ms; before m) ++ remainder s ms.

(** [extractReadingCore]: [reading.replace(/'[^']*'/g, '')]. *)
Definition extractReadingCore (reading : jstring) : jstring :=
  removeMatches false reading.

(** [s.match(re)] for the global ['([^']+)']: the matched texts, apostrophes
    included; [null] when there is none. *)
Definition matchOkurigana (s : jstring) : option (list jstring) :=
  match execAll true s with
  | [] => None
  | ms => Some ((λ m, apostrophe :: group1 m ++ [apostrophe]) <$> ms)
  end.

(** [s.replace(/'/g, '')] *)
Definition removeApostrophes (s : jstring) : jstring :=
  filter (λ c, c ≠ apostrophe) s.

(** ** Catalog entries and the record parser *)

(** [Item]. The fields the type marks optional are options; [filename] is one
    too, because the row mapping stores whatever the dynamic read of the
    identifying column gave, which can be [undefined]. *)
Record Item := {
  filename : option jstring;
  reading : jstring;
  meaning : option jstring;
  imageUrl : jstring;
  additionalInfo : option jstring;
  components : option jstring }.

#[global] Instance Item_eq_dec : EqDecision Item.
Proof. solve_decision. Defined.

Inductive Level := Level4 | Level5 | Level6 | Level7 | Level8.

Definition levelDigit (l : Level) : N :=
  match l with
  | Level4 => 52 | Level5 => 53 | Level6 => 54 | Level7 => 55 | Level8 => 56
  end.

(** The loop of [parseCSVLine] over the code units of the line. *)
Fixpoint parseCSVLine_loop (line : jstring) (result : list jstring)
    (current : jstring) (inQuotes : bool) : list jstring :=
  match line with
  | [] => result ++ [current]
  | char :: rest =>
      if bool_decide (char = dquote) then
        parseCSVLine_loop rest result current (negb inQuotes)
      else if bool_decide (char = comma) && negb inQuotes then
        parseCSVLine_loop rest (result ++ [current]) [] inQuotes
      else
        parseCSVLine_loop rest result (current ++ [char]) inQuotes
  end.

Definition parseCSVLine (line : jstring) : list jstring :=
  parseCSVLine_loop line [] [] false.

(** [text.split(/\r?\n/)]: a line feed, with the carriage return before it
    when there is one, ends a line. *)
Fixpoint splitLines (s : jstring) : list jstring :=
  match s with
  | [] => [[]]
  | c :: t =>
      let cons_to_first c ls :=
        match ls with piece :: more => (c :: piece) :: more | [] => [[c]] end in
      if bool_decide (c = 10%N) then [] :: splitLines t
      else if bool_decide (c = 13%N) then
        match t with
        | d :: t' => if bool_decide (d = 10%N) then [] :: splitLines t'
                     else cons_to_first c (splitLines t)
        | [] => [[c]]
        end
      else cons_to_first c (splitLines t)
  end.

(** The decimal digits of an array index, for the template [col${i}]. *)
Fixpoint digits (d : Decimal.uint) : jstring :=
  match d with
  | Decimal.Nil => []
  | Decimal.D0 r => 48%N :: digits r | Decimal.D1 r => 49%N :: digits r
  | Decimal.D2 r => 50%N :: digits r | Decimal.D3 r => 51%N :: digits r
  | Decimal.D4 r => 52%N :: digits r | Decimal.D5 r => 53%N :: digits r
  | Decimal.D6 r => 54%N :: digits r | Decimal.D7 r => 55%N :: digits r
  | Decimal.D8 r => 56%N :: digits r | Decimal.D9 r => 57%N :: digits r
  end.

Definition numberToString (i : nat) : jstring := digits (Nat.to_uint i).

(** The row object [obj : any = {}]: its own properties are a finite map; a
    read that finds no own property goes to [Object.prototype]. What a
    dynamic read [d[key]] can give: *)
Inductive jsval :=
  | JUndefined
  | JString (s : jstring)
  | JInherited.   (* a member of Object.prototype, or that object itself *)

Definition protoKey : jstring := utf16 "__proto__".

Definition objectPrototypeKeys : list jstring :=
  utf16 <$> [ "constructor"; "__defineGetter__"; "__defineSetter__";
              "hasOwnProperty"; "__lookupGetter__"; "__lookupSetter__";
              "isPrototypeOf"; "propertyIsEnumerable"; "toString"; "valueOf";
              "__proto__"; "toLocaleString" ]%string.

(** [obj[key] = value] for a string [value]: the setter of [__proto__]
    ignores a value that is no object, every other key becomes an own
    property. *)
Definition setProp (obj : gmap jstring jstring) (key value : jstring)
    : gmap jstring jstring :=
  if bool_decide (key = protoKey) then obj else <[key := value]> obj.

Definition getProp (obj : gmap jstring jstring) (key : jstring) : jsval :=
  match obj !! key with
  | Some v => JString v
  | None => if bool_decide (key ∈ objectPrototypeKeys) then JInherited else JUndefined
  end.

(** [header[i] || `col${i}`] *)
Definition columnKey (header : list jstring) (i : nat) : jstring :=
  orElse (default [] (header !! i)) (utf16 "col" ++ numberToString i).

(** The loop [for (let i = 0; i < cols.length; i++)], with [cols] the columns
    from index [i] on. *)
Fixpoint rowObject_loop (header : list jstring) (i : nat) (cols : list jstring)
    (obj : gmap jstring jstring) : gmap jstring jstring :=
  match cols with
  | [] => obj
  | col :: rest =>
      rowObject_loop header (S i) rest (setProp obj (columnKey header i) (trim col))
  end.

Definition rowObject (header : list jstring) (line : jstring) : gmap jstring jstring :=
  rowObject_loop header 0 (parseCSVLine line) ∅.

(** [header.includes('path') ? 'path' : (header.includes('filename') ?
    'filename' : header[0])]; used as a key, a missing [header[0]] reads
    [undefined]. *)
Definition filenameField (header : list jstring) : jstring :=
  if bool_decide (utf16 "path" ∈ header) then utf16 "path"
  else if bool_decide (utf16 "filename" ∈ header) then utf16 "filename"
  else default (utf16 "undefined") (header !! 0).

(** How an evaluation ends: with a value, or with an exception. *)
Inductive completion (A : Type) :=
  | Returned (a : A)
  | ThrownTypeError.
Arguments Returned {A} a.
Arguments ThrownTypeError {A}.

(** [d.key || d['key'] || ''] *)
Definition stringOrEmpty (v : jsval) : jstring :=
  match v with
  | JString s => s
  | _ => []
  end.

Definition stringOrUndefined (v : jsval) : option jstring :=
  match v with
  | JString s => Some s
  | _ => None
  end.

(** The body of [data.map(d => ...)]. [fname?.startsWith('/')] is skipped for
    [undefined] only; on a value that is no string [startsWith] is not a
    function and the call throws. *)
Definition toItem (selectedLevel : Level) (field : jstring)
    (d : gmap jstring jstring) : completion Item :=
  let fname := getProp d field in
  let base := utf16 "/kanji/level-" ++ levelDigit selectedLevel :: [slash] in
  let rest url := Returned
    {| filename := stringOrUndefined fname;
       reading := orElse (stringOrEmpty (getProp d (utf16 "reading")))
                    (orElse (stringOrEmpty (getProp d (utf16 "reading"))) []);
       meaning := stringOrUndefined (getProp d (utf16 "meaning"));
       imageUrl := url;
       additionalInfo :=
         Some (orElse (stringOrEmpty (getProp d (utf16 "additional_info")))
                 (orElse (stringOrEmpty (getProp d (utf16 "additional_info"))) []));
       components :=
         Some (orElse (stringOrEmpty (getProp d (utf16 "components")))
                 (orElse (stringOrEmpty (getProp d (utf16 "components"))) [])) |} in
  match fname with
  | JString s => rest (if startsWith [slash] s then s else base ++ s)
  | JUndefined => rest (base ++ utf16 "undefined")
  | JInherited => ThrownTypeError
  end.

Fixpoint mapCompletion {A B : Type} (f : A → completion B) (l : list A)
    : completion (list B) :=
  match l with
  | [] => Returned []
  | a :: l' =>
      match f a with
      | Returned b =>
          match mapCompletion f l' with
          | Returned bs => Returned (b :: bs)
          | ThrownTypeError => ThrownTypeError
          end
      | ThrownTypeError => ThrownTypeError
      end
  end.

Section Catalog.

(** [String.prototype.toLowerCase], taken as given. *)
Variable toLowerCase : jstring → jstring.

(** The part of [load] between the fetched text and [setItems(mapped)]. *)
Definition parseCatalog (selectedLevel : Level) (text : jstring)
    : completion (list Item) :=
  let lines := filter (λ l, l ≠ []) (splitLines text) in
  let headerLine := default [] (head lines) in
  let header := (λ h, toLowerCase (trim h)) <$> parseCSVLine headerLine in
  let data := rowObject header <$> tail lines in
  let field := filenameField header in
  mapCompletion (toItem selectedLevel field) data.

(** ** Browsing: the genre filter and the search *)

Definition definedGenres : list jstring :=
  utf16 <$> [ "動物"; "植物・藻類"; "地名・建造物"; "人名"; "スラング"; "飲食";
              "単位"; "演目・外題"; "則天文字"; "チュノム"; "元素"; "嘘字";
              "簡体字"; "文学の漢字"; "字義未詳"; "西夏文字" ]%string.

Definition genreAll : jstring := utf16 "all".
Definition genreNone : jstring := utf16 "ジャンルなし".

Definition genres : list jstring := genreAll :: genreNone :: definedGenres.

(** [item.additionalInfo || ''] *)
Definition info (item : Item) : jstring := default [] (additionalInfo item).

(** The first assignment of [filteredItems]. *)
Definition filterByGenre (selectedGenre : jstring) (items : list Item) : list Item :=
  if bool_decide (selectedGenre = genreAll) then items
  else if bool_decide (selectedGenre = genreNone) then
    filter (λ item, negb (existsb (λ genre, includes (info item) genre) definedGenres)) items
  else
    filter (λ item, includes (info item) selectedGenre) items.

Inductive SearchMode := SearchReading | SearchComponent.

(** [s.split(/\s+/)]: the pieces between the maximal runs of white space;
    [inRun] tells that the unit before was white space. *)
Fixpoint splitWhitespace_loop (s : jstring) (current : jstring) (inRun : bool)
    : list jstring :=
  match s with
  | [] => [current]
  | c :: t =>
      if isWhiteSpace c then
        if inRun then splitWhitespace_loop t current true
        else current :: splitWhitespace_loop t [] true
      else splitWhitespace_loop t (current ++ [c]) false
  end.

Definition splitWhitespace (s : jstring) : list jstring :=
  splitWhitespace_loop s [] false.

(** The predicate of the second [filter], for the trimmed and lower-cased
    [query]. *)
Definition matchesSearch (searchMode : SearchMode) (query : jstring) (item : Item) : bool :=
  match searchMode with
  | SearchReading =>
      match matchOkurigana (reading item) with
      | None => false
      | Some okuriganaMatches =>
          let okuriganaText := mjoin (removeApostrophes <$> okuriganaMatches) in
          includes (toLowerCase okuriganaText) query
      end
  | SearchComponent =>
      let componentList :=
        (λ c, toLowerCase (trim c))
          <$> filter (λ c, c ≠ []) (splitWhitespace (default [] (components item))) in
      existsb (λ component, includes component query) componentList
  end.

Definition filteredItems (selectedGenre searchQuery : jstring)
    (searchMode : SearchMode) (items : list Item) : list Item :=
  let byGenre := filterByGenre selectedGenre items in
  match trim searchQuery with
  | [] => byGenre
  | _ =>
      let query := toLowerCase (trim searchQuery) in
      filter (λ item, matchesSearch searchMode query item) byGenre
  end.

End Catalog.

(** ** The quiz *)

(** The check inside [checkAnswer]: the reading is split on the full-width
    comma, each option trimmed, and the trimmed input compared with the core
    of each option. *)
Definition answerMatches (correctReading userAnswer : jstring) : bool :=
  let correctOptions := trim <$> split touten correctReading in
  let userInput := trim userAnswer in
  existsb (λ option, bool_decide (userInput = extractReadingCore option)) correctOptions.

(** An outcome of [[...xs].sort(() => Math.random() - 0.5)]: some
    rearrangement of the array. *)
Record Shuffle := {
  shuffled :> list Item → list Item;
  shuffled_perm : ∀ l, shuffled l ≡ₚ l }.

(** An outcome of [Math.random()]: a fraction in the interval from 0
    (included) to 1 (excluded). *)
Record Random01 := {
  numerator : nat;
  denominator : nat;
  below_one : numerator < denominator }.

(** [Math.floor(Math.random() * k)] *)
Definition floorTimes (k : nat) (r : Random01) : nat :=
  (k * numerator r) `div` denominator r.

(** [generateChoices]; the loop [for (let i = 0; i < 4; i++)] carries
    [choicesArray] and [wrongIndex]. *)
Definition generateChoices (sortOthers : Shuffle) (random : Random01)
    (correctItem : Item) (allItems : list Item) : list jstring * nat :=
  let correct := reading correctItem in
  let others := filter (λ it, reading it ≠ correct) allItems in
  let shuffledOthers := sortOthers others in
  let wrongChoices := reading <$> take 3 shuffledOthers in
  let correctIndex := floorTimes 4 random in
  let body (acc : list jstring * nat) (i : nat) :=
    let '(choicesArray, wrongIndex) := acc in
    if bool_decide (i = correctIndex) then
      (choicesArray ++ [extractReadingCore correct], wrongIndex)
    else
      (choicesArray
         ++ [extractReadingCore (orElse (default [] (wrongChoices !! wrongIndex)) [])],
       S wrongIndex) in
  (fst (foldl body ([], 0) (seq 0 4)), correctIndex).

Inductive Mode := ListMode | QuizMode.
Inductive QuizFormat := InputFormat | ChoiceFormat.

#[global] Instance Mode_eq_dec : EqDecision Mode.
Proof. solve_decision. Defined.
#[global] Instance QuizFormat_eq_dec : EqDecision QuizFormat.
Proof. solve_decision. Defined.

Record Score := { correct : nat; incorrect : nat }.

(** The state of the component that the browsing view and the quiz use: one
    field for each [useState]. *)
Record State := {
  items : option (list Item);
  selectedGenre : jstring;
  searchQuery : jstring;
  searchMode : SearchMode;
  mode : Mode;
  quizFormat : QuizFormat;
  quizItems : list Item;
  currentIndex : nat;
  userAnswer : jstring;
  showResult : bool;
  isCorrect : bool;
  score : Score;
  choices : list jstring;
  correctChoiceIndex : Z }.

Definition setItems (v : option (list Item)) (st : State) : State :=
  {| items := v; selectedGenre := selectedGenre st; searchQuery := searchQuery st;
     searchMode := searchMode st; mode := mode st; quizFormat := quizFormat st;
     quizItems := quizItems st; currentIndex := currentIndex st;
     userAnswer := userAnswer st; showResult := showResult st;
     isCorrect := isCorrect st; score := score st; choices := choices st;
     correctChoiceIndex := correctChoiceIndex st |}.

Definition setSelectedGenre (v : jstring) (st : State) : State :=
  {| items := items st; selectedGenre := v; searchQuery := searchQuery st;
     searchMode := searchMode st; mode := mode st; quizFormat := quizFormat st;
     quizItems := quizItems st; currentIndex := currentIndex st;
     userAnswer := userAnswer st; showResult := showResult st;
     isCorrect := isCorrect st; score := score st; choices := choices st;
     correctChoiceIndex := correctChoiceIndex st |}.

Definition setSearchQuery (v : jstring) (st : State) : State :=
  {| items := items st; selectedGenre := selectedGenre st; searchQuery := v;
     searchMode := searchMode st; mode := mode st; quizFormat := quizFormat st;
     quizItems := quizItems st; currentIndex := currentIndex st;
     userAnswer := userAnswer st; showResult := showResult st;
     isCorrect := isCorrect st; score := score st; choices := choices st;
     correctChoiceIndex := correctChoiceIndex st |}.

Definition setSearchMode (v : SearchMode) (st : State) : State :=
  {| items := items st; selectedGenre := selectedGenre st;
     searchQuery := searchQuery st; searchMode := v; mode := mode st;
     quizFormat := quizFormat st; quizItems := quizItems st;
     currentIndex := currentIndex st; userAnswer := userAnswer st;
     showResult := showResult st; isCorrect := isCorrect st; score := score st;
     choices := choices st; correctChoiceIndex := correctChoiceIndex st |}.

Definition setMode (v : Mode) (st : State) : State :=
  {| items := items st; selectedGenre := selectedGenre st;
     searchQuery := searchQuery st; searchMode := searchMode st; mode := v;
     quizFormat := quizFormat st; quizItems := quizItems st;
     currentIndex := currentIndex st; userAnswer := userAnswer st;
     showResult := showResult st; isCorrect := isCorrect st; score := score st;
     choices := choices st; correctChoiceIndex := correctChoiceIndex st |}.

Definition setQuizFormat (v : QuizFormat) (st : State) : State :=
  {| items := items st; selectedGenre := selectedGenre st;
     searchQuery := searchQuery st; searchMode := searchMode st; mode := mode st;
     quizFormat := v; quizItems := quizItems st; currentIndex := currentIndex st;
     userAnswer := userAnswer st; showResult := showResult st;
     isCorrect := isCorrect st; score := score st; choices := choices st;
     correctChoiceIndex := correctChoiceIndex st |}.

Definition setQuizItems (v : list Item) (st : State) : State :=
  {| items := items st; selectedGenre := selectedGenre st;
     searchQuery := searchQuery st; searchMode := searchMode st; mode := mode st;
     quizFormat := quizFormat st; quizItems := v; currentIndex := currentIndex st;
     userAnswer := userAnswer st; showResult := showResult st;
     isCorrect := isCorrect st; score := score st; choices := choices st;
     correctChoiceIndex := correctChoiceIndex st |}.

Definition setCurrentIndex (v : nat) (st : State) : State :=
  {| items := items st; selectedGenre := selectedGenre st;
     searchQuery := searchQuery st; searchMode := searchMode st; mode := mode st;
     quizFormat := quizFormat st; quizItems := quizItems st; currentIndex := v;
     userAnswer := userAnswer st; showResult := showResult st;
     isCorrect := isCorrect st; score := score st; choices := choices st;
     correctChoiceIndex := correctChoiceIndex st |}.

Definition setUserAnswer (v : jstring) (st : State) : State :=
  {| items := items st; selectedGenre := selectedGenre st;
     searchQuery := searchQuery st; searchMode := searchMode st; mode := mode st;
     quizFormat := quizFormat st; quizItems := quizItems st;
     currentIndex := currentIndex st; userAnswer := v; showResult := showResult st;
     isCorrect := isCorrect st; score := score st; choices := choices st;
     correctChoiceIndex := correctChoiceIndex st |}.

Definition setShowResult (v : bool) (st : State) : State :=
  {| items := items st; selectedGenre := selectedGenre st;
     searchQuery := searchQuery st; searchMode := searchMode st; mode := mode st;
     quizFormat := quizFormat st; quizItems := quizItems st;
     currentIndex := currentIndex st; userAnswer := userAnswer st; showResult := v;
     isCorrect := isCorrect st; score := score st; choices := choices st;
     correctChoiceIndex := correctChoiceIndex st |}.

Definition setIsCorrect (v : bool) (st : State) : State :=
  {| items := items st; selectedGenre := selectedGenre st;
     searchQuery := searchQuery st; searchMode := searchMode st; mode := mode st;
     quizFormat := quizFormat st; quizItems := quizItems st;
     currentIndex := currentIndex st; userAnswer := userAnswer st;
     showResult := showResult st; isCorrect := v; score := score st;
     choices := choices st; correctChoiceIndex := correctChoiceIndex st |}.

Definition setScore (v : Score) (st : State) : State :=
  {| items := items st; selectedGenre := selectedGenre st;
     searchQuery := searchQuery st; searchMode := searchMode st; mode := mode st;
     quizFormat := quizFormat st; quizItems := quizItems st;
     currentIndex := currentIndex st; userAnswer := userAnswer st;
     showResult := showResult st; isCorrect := isCorrect st; score := v;
     choices := choices st; correctChoiceIndex := correctChoiceIndex st |}.

Definition setChoices (v : list jstring) (st : State) : State :=
  {| items := items st; selectedGenre := selectedGenre st;
     searchQuery := searchQuery st; searchMode := searchMode st; mode := mode st;
     quizFormat := quizFormat st; quizItems := quizItems st;
     currentIndex := currentIndex st; userAnswer := userAnswer st;
     showResult := showResult st; isCorrect := isCorrect st; score := score st;
     choices := v; correctChoiceIndex := correctChoiceIndex st |}.

Definition setCorrectChoiceIndex (v : Z) (st : State) : State :=
  {| items := items st; selectedGenre := selectedGenre st;
     searchQuery := searchQuery st; searchMode := searchMode st; mode := mode st;
     quizFormat := quizFormat st; quizItems := quizItems st;
     currentIndex := currentIndex st; userAnswer := userAnswer st;
     showResult := showResult st; isCorrect := isCorrect st; score := score st;
     choices := choices st; correctChoiceIndex := v |}.

(** The state after mounting, and after [load] has stored a catalog. *)
Definition initialState : State :=
  {| items := None; selectedGenre := genreAll; searchQuery := []; searchMode := SearchReading;
     mode := ListMode; quizFormat := InputFormat; quizItems := []; currentIndex := 0;
     userAnswer := []; showResult := false; isCorrect := false;
     score := {| correct := 0; incorrect := 0 |}; choices := []; correctChoiceIndex := (-1)%Z |}.

Definition loadedState (catalog : list Item) : State := setItems (Some catalog) initialState.

Definition addCorrect (sc : Score) : Score :=
  {| correct := correct sc + 1; incorrect := incorrect sc |}.
Definition addIncorrect (sc : Score) : Score :=
  {| correct := correct sc; incorrect := incorrect sc + 1 |}.

Definition answered (sc : Score) : nat := correct sc + incorrect sc.

(** [startQuiz] *)
Definition startQuiz (sortItems : Shuffle) (st : State) : State :=
  match items st with
  | None => st
  | Some [] => st
  | Some catalog =>
      setMode QuizMode
        (setScore {| correct := 0; incorrect := 0 |}
           (setShowResult false
              (setUserAnswer []
                 (setCurrentIndex 0 (setQuizItems (sortItems catalog) st)))))
  end.

(** [backToList] *)
Definition backToList (st : State) : State :=
  setShowResult false (setUserAnswer [] (setMode ListMode st)).

(** [checkAnswer] *)
Definition checkAnswer (st : State) : State :=
  match quizItems st !! currentIndex st with
  | None => st
  | Some item =>
      let correct := answerMatches (reading item) (userAnswer st) in
      setScore (if correct then addCorrect (score st) else addIncorrect (score st))
        (setShowResult true (setIsCorrect correct st))
  end.

(** [giveUp] *)
Definition giveUp (st : State) : State :=
  match quizItems st !! currentIndex st with
  | None => st
  | Some _ =>
      setScore (addIncorrect (score st)) (setShowResult true (setIsCorrect false st))
  end.

(** [nextQuestion]; the [alert] of the final score shows and changes
    nothing of the state. *)
Definition nextQuestion (st : State) : State :=
  if bool_decide (Z.of_nat (currentIndex st) < Z.of_nat (length (quizItems st)) - 1)%Z then
    setShowResult false (setUserAnswer [] (setCurrentIndex (currentIndex st + 1) st))
  else backToList st.

(** The [onClick] of the two format buttons. *)
Definition selectFormat (format : QuizFormat) (st : State) : State :=
  setShowResult false (setUserAnswer [] (setQuizFormat format st)).

(** The [onClick] of the choice button [idx], showing [choice]. *)
Definition clickChoice (idx : nat) (choice : jstring) (st : State) : State :=
  if showResult st then st
  else
    let correct := bool_decide (Z.of_nat idx = correctChoiceIndex st) in
    setScore (if correct then addCorrect (score st) else addIncorrect (score st))
      (setShowResult true (setIsCorrect correct (setUserAnswer choice st))).

(** The [onKeyPress] of the text input, for the Enter key. *)
Definition pressEnter (st : State) : State :=
  if negb (showResult st) then checkAnswer st else nextQuestion st.

(** What the user can do. *)
Inductive Event :=
  | StartQuiz
  | BackToList
  | SelectFormat (format : QuizFormat)
  | TypeAnswer (value : jstring)
  | PressEnter
  | Submit
  | GiveUp
  | ClickChoice (idx : nat)
  | NextQuestion.

(** The quiz view is rendered when [mode === 'quiz' && quizItems.length > 0],
    the browsing view when [items && mode === 'list']. *)
Definition quizView (st : State) : bool :=
  bool_decide (mode st = QuizMode) && bool_decide (quizItems st ≠ []).

Definition listView (st : State) : bool :=
  bool_decide (is_Some (items st)) && bool_decide (mode st = ListMode).

(** Whether the control of an event is on the page and not disabled. The
    two format buttons carry no condition. *)
Definition enabled (ev : Event) (st : State) : bool :=
  match ev with
  | StartQuiz => listView st
  | BackToList => quizView st
  | SelectFormat _ => quizView st
  | TypeAnswer _ | PressEnter =>
      quizView st && bool_decide (quizFormat st = InputFormat) && negb (showResult st)
  | Submit =>
      quizView st && negb (showResult st) && bool_decide (quizFormat st = InputFormat)
        && bool_decide (trim (userAnswer st) ≠ [])
  | GiveUp =>
      quizView st && negb (showResult st) && bool_decide (quizFormat st = InputFormat)
  | ClickChoice idx =>
      quizView st && bool_decide (quizFormat st = ChoiceFormat)
        && bool_decide (idx < length (choices st)) && negb (showResult st)
  | NextQuestion => quizView st && showResult st
  end.

(** The random outcomes one event may consume. *)
Record Randomness := {
  sortItems : Shuffle;
  sortOthers : Shuffle;
  slot : Random01 }.

Definition handle (rnd : Randomness) (ev : Event) (st : State) : State :=
  match ev with
  | StartQuiz => startQuiz (sortItems rnd) st
  | BackToList => backToList st
  | SelectFormat format => selectFormat format st
  | TypeAnswer value => setUserAnswer value st
  | PressEnter => pressEnter st
  | Submit => checkAnswer st
  | GiveUp => giveUp st
  | ClickChoice idx => clickChoice idx (default [] (choices st !! idx)) st
  | NextQuestion => nextQuestion st
  end.

(** The effect with dependencies [[mode, quizFormat, quizItems,
    currentIndex]]. [quizItems] is replaced by [startQuiz] only, which goes
    from the list mode to the quiz mode, so a new array shows as a new
    mode. *)
Definition choicesEffect (rnd : Randomness) (old new : State) : State :=
  if bool_decide (mode old = mode new) && bool_decide (quizFormat old = quizFormat new)
     && bool_decide (currentIndex old = currentIndex new)
  then new
  else if bool_decide (mode new = QuizMode) && bool_decide (quizFormat new = ChoiceFormat)
  then
    match quizItems new !! currentIndex new with
    | Some item =>
        let result := generateChoices (sortOthers rnd) (slot rnd) item (quizItems new) in
        setCorrectChoiceIndex (Z.of_nat (snd result)) (setChoices (fst result) new)
    | None => new
    end
  else new.

(** One user action, handled to completion and followed by the effect;
    [None] when the page, as [guard] describes it, offers no such action. *)
Definition stepWith (guard : Event → State → bool) (st : State)
    (a : Randomness * Event) : option State :=
  let '(rnd, ev) := a in
  if guard ev st then Some (choicesEffect rnd st (handle rnd ev st)) else None.

Fixpoint runWith (guard : Event → State → bool) (st : State)
    (trace : list (Randomness * Event)) : option State :=
  match trace with
  | [] => Some st
  | a :: trace' =>
      match stepWith guard st a with
      | Some st' => runWith guard st' trace'
      | None => None
      end
  end.

(** The component as it is. *)
Definition run : State → list (Randomness * Event) → option State := runWith enabled.

(** Two outcomes of the random sources, for examples: the array left as it
    is, and the draw 0. *)
Definition keepOrder : Shuffle :=
  {| shuffled := λ l, l; shuffled_perm := λ l, reflexivity l |}.

Definition drawZero : Random01 :=
  {| numerator := 0; denominator := 1; below_one := Nat.lt_0_1 |}.

Definition plainRandomness : Randomness :=
  {| sortItems := keepOrder; sortOthers := keepOrder; slot := drawZero |}.

(** ** The word-card view *)

(** [it.filename || it.imageUrl]: the key under which a card is revealed. *)
Definition cardKey (it : Item) : jstring :=
  match filename it with
  | Some (c :: f) => c :: f
  | _ => imageUrl it
  end.

(** [handleCardClick], as the new value of [revealed]: nothing outside the
    study mode, otherwise the key of the card is removed when present and
    added when absent. *)
Definition handleCardClick (studyMode : bool) (it : Item) (revealed : gset jstring)
    : gset jstring :=
  if negb studyMode then revealed
  else
    let key := cardKey it in
    if bool_decide (key ∈ revealed) then revealed ∖ {[key]} else revealed ∪ {[key]}.

(** The [onClick] of the study-mode button, on the pair of [studyMode] and
    [revealed]. *)
Definition toggleStudyMode (view : bool * gset jstring) : bool * gset jstring :=
  (negb (fst view), ∅).

(** Whether a card of the list shows its reading: always outside the study
    mode, and in it when the key of the card is revealed. *)
Definition readingShown (studyMode : bool) (revealed : gset jstring) (it : Item) : bool :=
  negb studyMode || bool_decide (cardKey it ∈ revealed).

(** ** Writing what the parsers read *)

(** [pieces.join(sep)] *)
Fixpoint joinWith (sep : jstring) (pieces : list jstring) : jstring :=
  match pieces with
  | [] => []
  | p :: rest =>
      match rest with
      | [] => p
      | _ => p ++ sep ++ joinWith sep rest
      end
  end.

(** A field of a line of the table, written between double quotes. *)
Definition quoteField (f : jstring) : jstring := dquote :: f ++ [dquote].

(** The header of a fetched text, as [load] computes it before it maps the
    rows. *)
Definition headerOf (toLowerCase : jstring → jstring) (text : jstring) : list jstring :=
  (λ h, toLowerCase (trim h))
    <$> parseCSVLine (default [] (head (filter (λ l, l ≠ []) (splitLines text)))).

(** The level-scoped location the relative image names are joined to. *)
Definition levelBase (selectedLevel : Level) : jstring :=
  utf16 "/kanji/level-" ++ levelDigit selectedLevel :: [slash].

(** The segments of a rendered reading that are emphasized, and those that
    are not. *)
Definition emphasizedSegments (s : jstring) : list Segment :=
  filter (λ seg, emphasized seg = true) (formatReadingWithOkurigana s).


(** ** Invariants of a running session *)

(** The position points at an entry of the working set. *)
Definition positionInvariant (st : State) : Prop :=
  mode st = QuizMode → currentIndex st < length (quizItems st).

(** In the choice format the four choices on the page belong to the current
    question: the slot marked correct shows the core of its reading. *)
Definition choicesInvariant (st : State) : Prop :=
  mode st = QuizMode → quizFormat st = ChoiceFormat →
  ∃ item k,
    quizItems st !! currentIndex st = Some item
    ∧ correctChoiceIndex st = Z.of_nat k ∧ k < 4
    ∧ length (choices st) = 4
    ∧ choices st !! k = Some (extractReadingCore (reading item)).

(** ** Predicates of the specification *)

(** The number of emphasis delimiters of a reading, and the readings in
    which that number is even. *)
Definition apostrophes (s : jstring) : nat :=
  length (filter (λ c, c = apostrophe) s).

Definition balanced (s : jstring) : bool := Nat.even (apostrophes s).

(** Where a scan of a reading stands: outside the spans, on the unit after
    an opening delimiter, or further inside a span. *)
Inductive QuoteState := Outside | JustOpened | InsideSpan.

(** No delimiter that opens a span is followed at once by the one that
    closes it. *)
Fixpoint noEmptySpan_from (q : QuoteState) (s : jstring) : bool :=
  match s with
  | [] => true
  | c :: t =>
      if bool_decide (c = apostrophe) then
        match q with
        | Outside => noEmptySpan_from JustOpened t
        | JustOpened => false
        | InsideSpan => noEmptySpan_from Outside t
        end
      else
        match q with
        | Outside => noEmptySpan_from Outside t
        | _ => noEmptySpan_from InsideSpan t
        end
  end.

Definition noEmptySpan (s : jstring) : bool := noEmptySpan_from Outside s.

(** An entry with a reading and a tags text, for examples. *)
Definition taggedEntry (r t : string) : Item :=
  {| filename := Some (utf16 r); reading := utf16 r; meaning := None;
     imageUrl := utf16 "/kanji/level-7/" ++ utf16 r;
     additionalInfo := Some (utf16 t); components := Some [] |}.

(** The wrong-answer candidate pool of a question, and the number of
    distinct raw readings in it. *)
Definition wrongAnswerPool (correctItem : Item) (allItems : list Item) : list Item :=
  filter (λ it, reading it ≠ reading correctItem) allItems.

Definition distinctReadings (pool : list Item) : nat :=
  length (remove_dups (reading <$> pool)).

(** The core shown for an entry. *)
Definition coreOf (it : Item) : jstring := extractReadingCore (reading it).

(** An entry with a reading and nothing else, for examples. *)
Definition entry (r : string) : Item :=
  {| filename := Some (utf16 r); reading := utf16 r; meaning := None;
     imageUrl := utf16 "/kanji/level-7/" ++ utf16 r;
     additionalInfo := Some []; components := Some [] |}.

(** [sub] occurs in [s]: what [includes] is to decide. *)
Definition hasSubstring (s sub : jstring) : Prop := ∃ pre post, s = pre ++ sub ++ post.

(** The rule of the specification for the format buttons: the format may
    change only while no answer has been submitted for the current question.
    The page of the source has no such condition. *)
Definition enabledBySpec (ev : Event) (st : State) : bool :=
  enabled ev st &&
  match ev with
  | SelectFormat _ => negb (showResult st)
  | _ => true
  end.

(** The invariant of the specification on the score of a running session:
    the answers counted are those of the questions before the current one,
    and of the current one once its result shows. *)
Definition scoreInvariant (st : State) : Prop :=
  mode st = QuizMode →
  currentIndex st < length (quizItems st)
  ∧ answered (score st) = currentIndex st + (if showResult st then 1 else 0).

(** * Properties *)

(** ** Regular expressions *)

Lemma closing_Some s run rest :
  closing s = Some (run, rest) ↔ s = run ++ apostrophe :: rest ∧ apostrophe ∉ run.
Proof.
  revert run; induction s as [|c t IH]; intros run; cbn.
  - split; [done|]. intros [H _]. by destruct run.
  - case_bool_decide as Hc.
    + subst c. split.
      * intros [= <- <-]. split; [done|]. apply not_elem_of_nil.
      * intros [H Hn]. destruct run as [|d run]; simplify_eq/=; [done|].
        exfalso. apply Hn. left.
    + destruct (closing t) as [[run' rest']|] eqn:Ht.
      * split.
        -- intros [= <- <-]. destruct (proj1 (IH run') eq_refl) as [-> Hn].
           split; [done|]. by apply not_elem_of_cons.
        -- intros [H Hn]. destruct run as [|d run]; simplify_eq/=.
           apply not_elem_of_cons in Hn as [_ Hn].
           assert (Some (run', rest') = Some (run, rest)) as [= -> ->]; [|done].
           apply IH. done.
      * split; [done|]. intros [H Hn]. destruct run as [|d run]; simplify_eq/=.
        apply not_elem_of_cons in Hn as [_ Hn].
        assert (None = Some (run, rest)); [|done]. apply IH. done.
Qed.

Lemma closing_None s : closing s = None ↔ apostrophe ∉ s.
Proof.
  induction s as [|c t IH]; cbn.
  - split; [intros _; apply not_elem_of_nil|done].
  - case_bool_decide as Hc.
    + subst. split; [done|]. intros H. exfalso. apply H. left.
    + rewrite not_elem_of_cons. destruct (closing t) as [[??]|].
      * split; [done|]. intros [_ H]. by apply IH in H.
      * split; [|done]. intros _. split; [done|]. by apply IH.
Qed.

(** What a match says about the searched text. *)
Lemma exec_Some b s m :
  exec b s = Some m →
  s = before m ++ apostrophe :: group1 m ++ apostrophe :: after m
  ∧ (apostrophe ∉ group1 m)
  ∧ (b = true → group1 m ≠ [])
  ∧ (b = false → apostrophe ∉ before m).
Proof.
  revert m; induction s as [|c t IH]; intros m; [by destruct b|].
  cbn [exec]. destruct (matchHere b (c :: t)) as [m'|] eqn:Hh.
  - intros [= <-]. cbn in Hh. case_bool_decide as Hc; [subst c|done].
    destruct (closing t) as [[run rest]|] eqn:Ht; [|done].
    apply closing_Some in Ht as [-> Hn].
    destruct (b && bool_decide (run = [])) eqn:Hb; [done|].
    injection Hh as <-. cbn. split_and!; [done|done| |].
    + intros ->. cbn in Hb. by case_bool_decide.
    + intros _. apply not_elem_of_nil.
  - destruct (exec b t) as [m'|]; [|done]. intros [= <-].
    destruct (IH _ eq_refl) as (-> & H1 & H2 & H3). cbn.
    split_and!; [done|done|done|].
    intros ->. apply not_elem_of_cons. split; [|by apply H3].
    intros <-. cbn in Hh. rewrite bool_decide_eq_true_2 in Hh by done.
    destruct (closing _) as [[??]|] eqn:Hcl; [done|].
    apply closing_None in Hcl. apply Hcl, elem_of_app. right. left.
Qed.

Lemma exec_after_length b s m : exec b s = Some m → length (after m) < length s.
Proof.
  intros (Hs & _)%exec_Some. apply (f_equal length) in Hs.
  rewrite length_app in Hs; cbn in Hs. rewrite length_app in Hs; cbn in Hs. lia.
Qed.

Lemma execAll_step b s :
  execAll b s =
  match exec b s with
  | Some m => m :: execAll b (after m)
  | None => []
  end.
Proof.
  rewrite execAll_equation_1. unfold inspect.
  enough (∀ o (e : exec b s = o),
    execAll_unfold_clause_1 b s (o ↾ e) =
    match o with Some m => m :: execAll b (after m) | None => [] end) as H
    by apply H.
  intros [m|] e; reflexivity.
Qed.

(** Induction along the successive searches of a global expression. *)
Lemma exec_ind b (P : jstring → Prop) :
  (∀ s, exec b s = None → P s) →
  (∀ s m, exec b s = Some m → P (after m) → P s) →
  ∀ s, P s.
Proof.
  intros Hnone Hsome s.
  remember (length s) as n eqn:Hn. revert s Hn.
  induction (lt_wf n) as [n _ IH]. intros s ->.
  destruct (exec b s) as [m|] eqn:He; [|by apply Hnone].
  apply (Hsome s m He), (IH (length (after m))); [|done].
  by eapply exec_after_length.
Qed.

Lemma remainder_cons s m ms : remainder s (m :: ms) = remainder (after m) ms.
Proof.
  unfold remainder. destruct ms as [|m' ms]; [done|].
  rewrite last_cons_cons. destruct (last (m' :: ms)) eqn:Hl; [done|].
  by apply last_None in Hl.
Qed.

Lemma removeMatches_unfold b s :
  removeMatches b s =
  match exec b s with
  | Some m => before m ++ removeMatches b (after m)
  | None => s
  end.
Proof.
  unfold removeMatches. rewrite (execAll_step b s).
  destruct (exec b s) as [m|]; [|done].
  cbn. by rewrite remainder_cons, (assoc (++)).
Qed.

Lemma formatReadingWithOkurigana_unfold s :
  formatReadingWithOkurigana s =
  match exec true s with
  | Some m =>
      plainSpan (before m) ++ {| text := group1 m; emphasized := true |}
        :: formatReadingWithOkurigana (after m)
  | None => plainSpan s
  end.
Proof.
  unfold formatReadingWithOkurigana. rewrite (execAll_step true s).
  destruct (exec true s) as [m|]; [|done].
  cbn. by rewrite remainder_cons, <-!(assoc (++)).
Qed.

(** ** The core of a reading *)

Lemma apostrophes_app s t : apostrophes (s ++ t) = apostrophes s + apostrophes t.
Proof. unfold apostrophes. by rewrite filter_app, length_app. Qed.

Lemma apostrophes_none s : apostrophe ∉ s → apostrophes s = 0.
Proof.
  unfold apostrophes. induction s as [|c t IH]; [done|].
  intros [Hc Ht]%not_elem_of_cons. rewrite filter_cons_False by done. auto.
Qed.

Lemma apostrophes_cons c s :
  apostrophes (c :: s) = (if bool_decide (c = apostrophe) then 1 else 0) + apostrophes s.
Proof. unfold apostrophes. rewrite filter_cons. by case_bool_decide; case_decide. Qed.

(** ['[^']*'] finds a match exactly when there are two delimiters. *)
Lemma exec_star_None s : exec false s = None ↔ apostrophes s ≤ 1.
Proof.
  split.
  - induction s as [|c t IH]; [cbn; lia|].
    cbn [exec]. rewrite apostrophes_cons.
    destruct (matchHere false (c :: t)) as [m|] eqn:Hh; [done|].
    cbn in Hh. case_bool_decide as Hc.
    + destruct (closing t) as [[??]|] eqn:Hcl; [done|].
      apply closing_None, apostrophes_none in Hcl. lia.
    + destruct (exec false t); [done|]. intros _. specialize (IH eq_refl). lia.
  - destruct (exec false s) as [m|] eqn:He; [|done].
    apply exec_Some in He as (-> & _). intros H. exfalso. revert H.
    rewrite apostrophes_app, apostrophes_cons, apostrophes_app, apostrophes_cons.
    rewrite !bool_decide_eq_true_2 by done. lia.
Qed.

Lemma extractReadingCore_few s : apostrophes (extractReadingCore s) ≤ 1.
Proof.
  unfold extractReadingCore. induction s as [s He|s m He IH] using (exec_ind false).
  - rewrite removeMatches_unfold, He. by apply exec_star_None.
  - rewrite removeMatches_unfold, He, apostrophes_app.
    apply exec_Some in He as (_ & _ & _ & Hb).
    rewrite apostrophes_none by auto. done.
Qed.

Lemma extractReadingCore_id s : apostrophes s ≤ 1 → extractReadingCore s = s.
Proof.
  intros H%exec_star_None. unfold extractReadingCore.
  by rewrite removeMatches_unfold, H.
Qed.

(** C7. The core function is idempotent: removing the paired emphasis spans
    of a core changes nothing, [core(core(s)) = core(s)] for every string. *)
Theorem extractReadingCore_idempotent (s : jstring) :
  extractReadingCore (extractReadingCore s) = extractReadingCore s.
Proof. apply extractReadingCore_id, extractReadingCore_few. Qed.


(** ** Rendering a reading *)

(** The text of the segments, concatenated. *)
Definition renderedText (s : jstring) : jstring :=
  mjoin (text <$> formatReadingWithOkurigana s).

Lemma renderedText_unfold s :
  renderedText s =
  match exec true s with
  | Some m => before m ++ group1 m ++ renderedText (after m)
  | None => s
  end.
Proof.
  unfold renderedText. rewrite formatReadingWithOkurigana_unfold.
  destruct (exec true s) as [m|].
  - rewrite fmap_app, join_app. cbn.
    destruct (before m); cbn; [done|]. by rewrite (right_id [] (++)).
  - destruct s; [done|]. cbn. by rewrite (right_id [] (++)).
Qed.

Lemma removeApostrophes_app s t :
  removeApostrophes (s ++ t) = removeApostrophes s ++ removeApostrophes t.
Proof. apply filter_app. Qed.

Lemma removeApostrophes_none s : apostrophe ∉ s → removeApostrophes s = s.
Proof.
  unfold removeApostrophes. induction s as [|c t IH]; [done|].
  intros [Hc Ht]%not_elem_of_cons. rewrite filter_cons_True by done. f_equal; auto.
Qed.

Lemma removeApostrophes_apostrophe s :
  removeApostrophes (apostrophe :: s) = removeApostrophes s.
Proof. unfold removeApostrophes. by rewrite filter_cons_False by auto. Qed.

(** The scan for empty spans, seen from the unit after an opening
    delimiter. *)
Lemma noEmptySpan_from_inside t run rest :
  closing t = Some (run, rest) →
  noEmptySpan_from InsideSpan t = noEmptySpan_from Outside rest.
Proof.
  revert run; induction t as [|c t IH]; intros run; [done|].
  cbn. case_bool_decide; [by intros [= _ ->]|].
  destruct (closing t) as [[run' rest']|]; [|done]. intros [= _ <-]. eauto.
Qed.

(** In a reading that is balanced and has no empty span, a search with
    ['([^']+)'] that fails has met no delimiter, and one that succeeds has
    skipped none and leaves a reading of the same kind. *)
Lemma exec_plus_paired s :
  balanced s = true → noEmptySpan s = true →
  match exec true s with
  | Some m =>
      (apostrophe ∉ before m)
      ∧ balanced (after m) = true ∧ noEmptySpan (after m) = true
  | None => apostrophe ∉ s
  end.
Proof.
  unfold balanced, noEmptySpan.
  induction s as [|c t IH]; [intros _ _; apply not_elem_of_nil|].
  rewrite apostrophes_cons. cbn [exec noEmptySpan_from matchHere].
  case_bool_decide as Hc.
  - subst c. intros Hb Hn.
    destruct (closing t) as [[run rest]|] eqn:Hcl.
    + pose proof Hcl as [Ht Hrun]%closing_Some.
      destruct run as [|d run].
      * exfalso. subst t. cbn in Hn. by rewrite bool_decide_eq_true_2 in Hn.
      * cbn. split; [apply not_elem_of_nil|]. subst t.
        apply not_elem_of_cons in Hrun as [Hd Hrun].
        cbn in Hn, Hcl. rewrite bool_decide_eq_false_2 in Hn, Hcl by done.
        destruct (closing (run ++ apostrophe :: rest)) as [[run' rest']|] eqn:Hcl';
          [|done].
        injection Hcl as -> ->.
        rewrite (noEmptySpan_from_inside _ _ _ Hcl') in Hn. split; [|done].
        change (Nat.even (apostrophes rest) = true).
        revert Hb. rewrite apostrophes_app, (apostrophes_cons apostrophe rest).
        rewrite bool_decide_eq_true_2 by done.
        rewrite (apostrophes_none (d :: run))
          by (apply not_elem_of_cons; split; assumption).
        intros Hb. exact Hb.
    + exfalso. apply closing_None, apostrophes_none in Hcl.
      rewrite Hcl in Hb. done.
  - intros Hb Hn. cbn in Hb. specialize (IH Hb Hn).
    destruct (exec true t) as [m|]; cbn.
    + destruct IH as (? & ? & ?). split_and!; [|done..].
      by apply not_elem_of_cons.
    + by apply not_elem_of_cons.
Qed.

(** C3, as amended. For every raw reading whose emphasis delimiters are
    balanced and in which no delimiter that opens a span is followed at once
    by the one that closes it, the texts of the segments of
    [formatReadingWithOkurigana], concatenated, are the reading with every
    delimiter removed. *)
Theorem render_text_balanced (s : jstring) :
  balanced s = true → noEmptySpan s = true →
  renderedText s = removeApostrophes s.
Proof.
  induction s as [s He|s m He IH] using (exec_ind true); intros Hb Hn.
  - pose proof (exec_plus_paired s Hb Hn) as H. rewrite He in H.
    by rewrite renderedText_unfold, He, removeApostrophes_none.
  - pose proof (exec_plus_paired s Hb Hn) as H. rewrite He in H.
    destruct H as (Hbefore & Hb' & Hn').
    rewrite renderedText_unfold, He, (IH Hb' Hn').
    apply exec_Some in He as (Hs & Hgroup & _).
    rewrite (f_equal removeApostrophes Hs).
    rewrite removeApostrophes_app, removeApostrophes_apostrophe,
      removeApostrophes_app, removeApostrophes_apostrophe.
    by rewrite (removeApostrophes_none (before m)),
      (removeApostrophes_none (group1 m)) by done.
Qed.

Lemma render_text_balanced_witness :
  balanced (utf16 "うつく'しい'、は'え'") = true
  ∧ noEmptySpan (utf16 "うつく'しい'、は'え'") = true
  ∧ renderedText (utf16 "うつく'しい'、は'え'")
    = removeApostrophes (utf16 "うつく'しい'、は'え'").
Proof.
  split; [reflexivity|]. split; [reflexivity|].
  apply (render_text_balanced (utf16 "うつく'しい'、は'え'")); reflexivity.
Defined.

(** C3, as stated, fails on the balanced reading made of two delimiters:
    ['([^']+)'] does not match an empty span, the whole reading is one plain
    segment and both delimiters stay in the text. *)
Lemma render_text_empty_span :
  balanced (utf16 "''") = true
  ∧ formatReadingWithOkurigana (utf16 "''")
    = [{| text := utf16 "''"; emphasized := false |}]
  ∧ removeApostrophes (utf16 "''") = []
  ∧ renderedText (utf16 "''") ≠ removeApostrophes (utf16 "''").
Proof. split_and!; [reflexivity..|]. by vm_compute. Qed.

(** ** Trimming *)

Lemma isWhiteSpace_apostrophe w : Forall isWhiteSpace w → apostrophe ∉ w.
Proof.
  induction 1 as [|c w Hc _ IH]; [apply not_elem_of_nil|].
  apply not_elem_of_cons. split; [|done]. by intros <-.
Qed.

Lemma trimStart_app_ws w x : Forall isWhiteSpace w → trimStart (w ++ x) = trimStart x.
Proof.
  induction 1 as [|c w Hc _ IH]; [done|]. cbn.
  by destruct (isWhiteSpace c).
Qed.

Lemma trimStart_ws w : Forall isWhiteSpace w → trimStart w = [].
Proof.
  intros H. by rewrite <-(right_id [] (++) w), trimStart_app_ws.
Qed.

Lemma trimEnd_app_ws x w : Forall isWhiteSpace w → trimEnd (x ++ w) = trimEnd x.
Proof.
  intros H. unfold trimEnd. rewrite reverse_app, trimStart_app_ws; [done|].
  by apply Forall_reverse.
Qed.

Lemma trimStart_decompose x : ∃ w, Forall isWhiteSpace w ∧ x = w ++ trimStart x.
Proof.
  induction x as [|c x (w & Hw & Hx)]; [by exists []|]. cbn.
  destruct (isWhiteSpace c) eqn:Hc.
  - exists (c :: w). split; [constructor; [by rewrite Hc|done]|]. cbn. by f_equal.
  - by exists [].
Qed.

Lemma trimEnd_decompose x : ∃ w, Forall isWhiteSpace w ∧ x = trimEnd x ++ w.
Proof.
  destruct (trimStart_decompose (reverse x)) as (w & Hw & Hx).
  exists (reverse w). split; [by apply Forall_reverse|].
  unfold trimEnd. by rewrite <-reverse_app, <-Hx, reverse_involutive.
Qed.

Lemma trim_decompose x :
  ∃ w1 w2, Forall isWhiteSpace w1 ∧ Forall isWhiteSpace w2 ∧ x = w1 ++ trim x ++ w2.
Proof.
  destruct (trimStart_decompose x) as (w1 & H1 & Hx).
  destruct (trimEnd_decompose (trimStart x)) as (w2 & H2 & Hy).
  exists w1, w2. split_and!; [done..|]. unfold trim. by rewrite <-Hy.
Qed.

(** White space around a string does not change what [trim] gives. *)
Lemma trim_context w1 k w2 :
  Forall isWhiteSpace w1 → Forall isWhiteSpace w2 → trim (w1 ++ k ++ w2) = trim k.
Proof.
  intros H1 H2. unfold trim. rewrite trimStart_app_ws by done. clear w1 H1.
  induction k as [|c k IH]; cbn [app trimStart].
  - by rewrite trimStart_ws.
  - destruct (isWhiteSpace c); [done|].
    by rewrite (app_comm_cons k w2 c), trimEnd_app_ws.
Qed.

(** ** Cores and their context *)

Lemma exec_star_intro pre g rest :
  apostrophe ∉ pre → apostrophe ∉ g →
  exec false (pre ++ apostrophe :: g ++ apostrophe :: rest)
  = Some {| before := pre; group1 := g; after := rest |}.
Proof.
  intros Hpre Hg. induction pre as [|c pre IH].
  - cbn. rewrite bool_decide_eq_true_2 by done.
    by rewrite (proj2 (closing_Some (g ++ apostrophe :: rest) g rest)).
  - apply not_elem_of_cons in Hpre as [Hc Hpre].
    cbn [app exec matchHere]. rewrite bool_decide_eq_false_2 by done.
    by rewrite IH.
Qed.

Lemma extractReadingCore_app_none x w :
  apostrophe ∉ w → extractReadingCore (x ++ w) = extractReadingCore x ++ w.
Proof.
  intros Hw. unfold extractReadingCore.
  induction x as [x He|x m He IH] using (exec_ind false).
  - rewrite (removeMatches_unfold false x), He.
    apply extractReadingCore_id.
    rewrite apostrophes_app, (apostrophes_none w) by done.
    apply exec_star_None in He. lia.
  - rewrite (removeMatches_unfold false x), He.
    apply exec_Some in He as (Hx & Hg & _ & Hb).
    rewrite removeMatches_unfold.
    assert (x ++ w
            = before m ++ apostrophe :: group1 m ++ apostrophe :: (after m ++ w)) as ->.
    { rewrite Hx at 1. by rewrite <-!(assoc (++)); cbn; rewrite <-!(assoc (++)). }
    rewrite exec_star_intro by auto. cbn. by rewrite IH, (assoc (++)).
Qed.

Lemma extractReadingCore_none_app w x :
  apostrophe ∉ w → extractReadingCore (w ++ x) = w ++ extractReadingCore x.
Proof.
  intros Hw. unfold extractReadingCore.
  rewrite (removeMatches_unfold false (w ++ x)), (removeMatches_unfold false x).
  destruct (exec false x) as [m|] eqn:He.
  - apply exec_Some in He as (Hx & Hg & _ & Hb).
    assert (w ++ x
            = (w ++ before m) ++ apostrophe :: group1 m ++ apostrophe :: after m) as ->.
    { rewrite Hx at 1. by rewrite (assoc (++)). }
    rewrite exec_star_intro; [cbn; by rewrite <-(assoc (++))|..|done].
    rewrite not_elem_of_app. auto.
  - assert (exec false (w ++ x) = None) as ->; [|done].
    apply exec_star_None in He. apply exec_star_None.
    by rewrite apostrophes_app, (apostrophes_none w).
Qed.

(** ** The answer check *)

Lemma answerMatches_intro r u option :
  option ∈ split touten r → trim u = extractReadingCore (trim option) →
  answerMatches r u = true.
Proof.
  intros Hin Hu. unfold answerMatches.
  induction (split touten r) as [|o os IH]; [by apply elem_of_nil in Hin|].
  cbn. apply elem_of_cons in Hin as [<-|Hin].
  - by rewrite bool_decide_eq_true_2.
  - rewrite IH by done. apply orb_true_r.
Qed.

(** C4, as amended. For every reading and every alternative obtained by
    splitting it on the full-width comma, submitting the core of the
    alternative is judged correct, provided the core of the trimmed
    alternative has no white space at either end. *)
Theorem answerMatches_core_of_alternative (correctReading alt : jstring) :
  alt ∈ split touten correctReading →
  trim (extractReadingCore (trim alt)) = extractReadingCore (trim alt) →
  answerMatches correctReading (extractReadingCore alt) = true.
Proof.
  intros Hin Htrim. apply (answerMatches_intro _ _ alt Hin).
  destruct (trim_decompose alt) as (w1 & w2 & H1 & H2 & Halt).
  rewrite Halt at 1.
  rewrite extractReadingCore_none_app by by apply isWhiteSpace_apostrophe.
  rewrite extractReadingCore_app_none by by apply isWhiteSpace_apostrophe.
  by rewrite trim_context.
Qed.

Lemma answerMatches_core_of_alternative_witness :
  utf16 " うつく'しい'" ∈ split touten (utf16 "は'え'、 うつく'しい'")
  ∧ answerMatches (utf16 "は'え'、 うつく'しい'")
      (extractReadingCore (utf16 " うつく'しい'")) = true.
Proof.
  assert (utf16 " うつく'しい'" ∈ split touten (utf16 "は'え'、 うつく'しい'")) as Hin.
  { vm_compute. apply list_elem_of_further, list_elem_of_here. }
  split; [exact Hin|].
  apply (answerMatches_core_of_alternative _ _ Hin). reflexivity.
Defined.

(** C4, as stated, fails when a removed span leaves white space at an end of
    the core: the input is trimmed, the core it is compared with is not. *)
Lemma answerMatches_core_untrimmed :
  split touten (utf16 "'お' く") = [utf16 "'お' く"]
  ∧ extractReadingCore (utf16 "'お' く") = utf16 " く"
  ∧ answerMatches (utf16 "'お' く") (extractReadingCore (utf16 "'お' く")) = false.
Proof. by vm_compute. Qed.

(** C5. For the reading of Scenario 1 the input check accepts the second
    alternative and rejects the text of the emphasized span: the cores of the
    two alternatives are the empty string and the second alternative, the
    span having been removed whole. *)
Theorem checkAnswer_teru_hikaru :
  let asked (input : jstring) :=
    checkAnswer
      (setUserAnswer input
         (startQuiz keepOrder (loadedState [entry "'てる'、ひかる"]))) in
  answerMatches (utf16 "'てる'、ひかる") (utf16 "ひかる") = true
  ∧ answerMatches (utf16 "'てる'、ひかる") (utf16 "てる") = false
  ∧ extractReadingCore <$> (trim <$> split touten (utf16 "'てる'、ひかる"))
    = [[]; utf16 "ひかる"]
  ∧ isCorrect (asked (utf16 "ひかる")) = true
  ∧ score (asked (utf16 "ひかる")) = {| correct := 1; incorrect := 0 |}
  ∧ isCorrect (asked (utf16 "てる")) = false
  ∧ score (asked (utf16 "てる")) = {| correct := 0; incorrect := 1 |}.
Proof. by vm_compute. Qed.

(** ** The four choices *)

Lemma floorTimes_lt k r : 0 < k → floorTimes k r < k.
Proof.
  intros Hk. unfold floorTimes. pose proof (below_one r) as Hr.
  apply Nat.Div0.div_lt_upper_bound. nia.
Qed.

Lemma extractReadingCore_nil : extractReadingCore [] = [].
Proof. reflexivity. Qed.

Lemma orElse_nil a : orElse a [] = a.
Proof. by destruct a. Qed.

(** The loop, unrolled for each place of the correct answer. *)
Lemma generateChoices_slots (sh : Shuffle) (rnd : Random01) (item : Item)
    (all : list Item) :
  let wrongChoices := reading <$> take 3 (sh (wrongAnswerPool item all)) in
  let w (i : nat) := extractReadingCore (default [] (wrongChoices !! i)) in
  let c := extractReadingCore (reading item) in
  generateChoices sh rnd item all =
  (match floorTimes 4 rnd with
   | 0 => [c; w 0; w 1; w 2]
   | 1 => [w 0; c; w 1; w 2]
   | 2 => [w 0; w 1; c; w 2]
   | _ => [w 0; w 1; w 2; c]
   end, floorTimes 4 rnd).
Proof.
  intros wrongChoices w c. unfold generateChoices.
  fold (wrongAnswerPool item all). fold wrongChoices. fold c.
  pose proof (floorTimes_lt 4 rnd) as Hlt.
  destruct (floorTimes 4 rnd) as [|[|[|[|k]]]]; [..|lia];
    cbn; repeat (case_bool_decide; [try lia|try lia]; cbn);
    by rewrite !orElse_nil.
Qed.

Lemma take3_pad {A} (l : list A) (d : A) :
  take 3 (l ++ replicate 3 d)
  = [default d (l !! 0); default d (l !! 1); default d (l !! 2)].
Proof. by destruct l as [|a [|b [|c l]]]. Qed.

(** C2, as amended. For every current entry and pool, a 1-entry pool
    included, [generateChoices] gives exactly 4 slots and a correct index
    below 4; the slot at that index holds the core of the correct reading, and
    the other three hold, in order, the cores of the readings of the first
    three shuffled candidates, the empty string standing for a missing one.
    When there are at least 3 candidates and their cores are pairwise
    distinct and differ from the core of the correct reading, the 4 strings
    are pairwise distinct. *)
Theorem generateChoices_four_slots (sh : Shuffle) (rnd : Random01)
    (item : Item) (all : list Item) :
  let result := generateChoices sh rnd item all in
  length (fst result) = 4
  ∧ snd result < 4
  ∧ fst result !! snd result = Some (coreOf item)
  ∧ delete (snd result) (fst result)
    = extractReadingCore
        <$> take 3 ((reading <$> sh (wrongAnswerPool item all)) ++ replicate 3 [])
  ∧ (3 ≤ length (wrongAnswerPool item all) →
     NoDup (coreOf item :: (coreOf <$> wrongAnswerPool item all)) →
     NoDup (fst result)).
Proof.
  cbn zeta. rewrite generateChoices_slots. cbn [fst snd].
  pose proof (floorTimes_lt 4 rnd) as Hlt.
  set (pool := sh (wrongAnswerPool item all)).
  assert (take 3 ((reading <$> pool) ++ replicate 3 [])
          = take 3 ((reading <$> take 3 pool) ++ replicate 3 [])) as Hpad.
  { by destruct pool as [|a [|b [|c l]]]. }
  rewrite Hpad, take3_pad. unfold coreOf.
  split_and!.
  - by destruct (floorTimes 4 rnd) as [|[|[|[|k]]]].
  - lia.
  - destruct (floorTimes 4 rnd) as [|[|[|[|k]]]]; [done..|lia].
  - destruct (floorTimes 4 rnd) as [|[|[|[|k]]]]; [done..|lia].
  - intros Hlen Hnd.
    assert (NoDup (coreOf item :: (coreOf <$> take 3 pool))) as Hall.
    { eapply sublist_NoDup; [|apply sublist_skip; rewrite fmap_take; apply sublist_take].
      unfold pool. by rewrite (shuffled_perm sh). }
    assert (3 ≤ length pool) as Hlen'.
    { unfold pool. by rewrite (shuffled_perm sh). }
    destruct pool as [|a [|b [|c l]]]; [cbn in Hlen'; lia..|].
    cbn in Hall |- *. unfold coreOf in Hall.
    destruct (floorTimes 4 rnd) as [|[|[|[|k]]]]; [| | | |lia].
    + done.
    + eapply NoDup_Permutation_proper; [|exact Hall]. apply perm_swap.
    + eapply NoDup_Permutation_proper; [|exact Hall].
      etrans; [apply perm_skip, perm_swap|apply perm_swap].
    + eapply NoDup_Permutation_proper; [|exact Hall].
      etrans; [apply perm_skip, perm_skip, perm_swap|].
      etrans; [apply perm_skip, perm_swap|apply perm_swap].
Qed.

Lemma generateChoices_four_slots_witness :
  let all := [entry "か"; entry "き'る'"; entry "く"; entry "け"] in
  let result := generateChoices keepOrder drawZero (entry "か") all in
  fst result = [utf16 "か"; utf16 "き"; utf16 "く"; utf16 "け"] ∧ NoDup (fst result).
Proof.
  intros all result. split; [reflexivity|].
  apply (generateChoices_four_slots keepOrder drawZero (entry "か") all).
  - vm_compute. lia.
  - apply (bool_decide_unpack _). vm_compute. exact I.
Defined.

(** C2, as stated, fails: three candidates with three distinct raw readings
    whose cores coincide fill the three wrong slots with the same string,
    whatever the shuffle and the draw. *)
Lemma generateChoices_same_cores :
  let all := [entry "か"; entry "あ'い'"; entry "あ'う'"; entry "あ'え'"] in
  3 ≤ distinctReadings (wrongAnswerPool (entry "か") all)
  ∧ fst (generateChoices keepOrder drawZero (entry "か") all)
    = [utf16 "か"; utf16 "あ"; utf16 "あ"; utf16 "あ"]
  ∧ ¬ NoDup (fst (generateChoices keepOrder drawZero (entry "か") all)).
Proof.
  intros all. split; [vm_compute; lia|]. split; [reflexivity|].
  intros Hnd. assert (fst (generateChoices keepOrder drawZero (entry "か") all)
    = [utf16 "か"; utf16 "あ"; utf16 "あ"; utf16 "あ"]) as Heq by reflexivity.
  rewrite Heq in Hnd. apply NoDup_cons in Hnd as [_ Hnd].
  apply NoDup_cons in Hnd as [Hnd _]. apply Hnd. apply list_elem_of_here.
Qed.

(** ** Rows of the table *)

Lemma parseCSVLine_loop_length line result current inQuotes :
  length result < length (parseCSVLine_loop line result current inQuotes).
Proof.
  revert result current inQuotes.
  induction line as [|char rest IH]; intros result current inQuotes; cbn.
  - rewrite length_app; cbn; lia.
  - case_bool_decide; [apply IH|].
    destruct (bool_decide (char = comma) && negb inQuotes); [|apply IH].
    etrans; [|apply IH]. rewrite length_app; cbn; lia.
Qed.

(** A line always parses to at least one field. *)
Lemma parseCSVLine_nonempty line : parseCSVLine line ≠ [].
Proof.
  pose proof (parseCSVLine_loop_length line [] [] false) as H.
  unfold parseCSVLine.
  destruct (parseCSVLine_loop line [] [] false); [cbn in H; lia|done].
Qed.

Lemma setProp_lookup_ne obj key value k :
  key ≠ k → setProp obj key value !! k = obj !! k.
Proof.
  intros Hne. unfold setProp. case_bool_decide; [done|]. by apply lookup_insert_ne.
Qed.

Lemma setProp_lookup_is_Some obj key value k :
  is_Some (obj !! k) → is_Some (setProp obj key value !! k).
Proof.
  intros H. unfold setProp. case_bool_decide; [done|].
  destruct (decide (key = k)) as [->|Hne].
  - rewrite lookup_insert_eq. eauto.
  - by rewrite lookup_insert_ne.
Qed.

(** A key no column of the row is stored under keeps what it had. *)
Lemma rowObject_loop_lookup_ne header i cols obj k :
  (∀ j, j < length cols → columnKey header (i + j) ≠ k) →
  rowObject_loop header i cols obj !! k = obj !! k.
Proof.
  revert i obj. induction cols as [|col rest IH]; intros i obj Hk; [done|].
  cbn. rewrite IH.
  - apply setProp_lookup_ne. specialize (Hk 0). rewrite Nat.add_0_r in Hk.
    apply Hk. cbn; lia.
  - intros j Hj. replace (S i + j) with (i + S j) by lia. apply Hk. cbn; lia.
Qed.

(** Later columns overwrite but never remove an own property. *)
Lemma rowObject_loop_is_Some header i cols obj k :
  is_Some (obj !! k) → is_Some (rowObject_loop header i cols obj !! k).
Proof.
  revert i obj. induction cols as [|col rest IH]; intros i obj Hk; [done|].
  cbn. by apply IH, setProp_lookup_is_Some.
Qed.

(** A key that does not begin like the template [col${i}] can only come
    from the header. *)
Lemma columnKey_header header j k :
  take 3 k ≠ utf16 "col" → columnKey header j = k → header !! j = Some k.
Proof.
  intros Hcol. unfold columnKey.
  destruct (header !! j) as [[|c h]|]; cbn; intros <-; done.
Qed.

(** A column name the row does not reach leaves no own property. *)
Lemma rowObject_missing header line k :
  take 3 k ≠ utf16 "col" →
  k ∉ take (length (parseCSVLine line)) header →
  rowObject header line !! k = None.
Proof.
  intros Hcol Hk. unfold rowObject.
  rewrite rowObject_loop_lookup_ne; [apply lookup_empty|].
  intros j Hj Hkey. apply columnKey_header in Hkey; [|done].
  apply Hk, list_elem_of_lookup. exists j. by rewrite lookup_take_lt.
Qed.

Lemma getProp_own_or_undefined obj k :
  k ∉ objectPrototypeKeys → getProp obj k ≠ JInherited.
Proof.
  intros Hk. unfold getProp. destruct (obj !! k); [done|].
  by rewrite bool_decide_eq_false_2.
Qed.

(** Closed goals about the fixed keys, by evaluation. *)
Ltac by_evaluation := apply (bool_decide_unpack _); vm_compute; exact I.

(** The read of the identifying column is inherited only for the header name
    that no assignment can store. *)
Lemma filenameField_not_inherited header line :
  filenameField header ≠ protoKey →
  getProp (rowObject header line) (filenameField header) ≠ JInherited.
Proof.
  unfold filenameField.
  case_bool_decide; [intros _; apply getProp_own_or_undefined; by_evaluation|].
  case_bool_decide; [intros _; apply getProp_own_or_undefined; by_evaluation|].
  destruct header as [|h header];
    [intros _; apply getProp_own_or_undefined; by_evaluation|].
  change (default (utf16 "undefined") ((h :: header) !! 0)) with h.
  intros Hproto. unfold getProp.
  destruct (rowObject (h :: header) line !! h) eqn:Hh; [done|].
  case_bool_decide as Hin; [|done]. exfalso.
  assert (is_Some (rowObject (h :: header) line !! h)) as [? ?]; [|congruence].
  unfold rowObject. pose proof (parseCSVLine_nonempty line) as Hne.
  destruct (parseCSVLine line) as [|col cols]; [done|].
  cbn [rowObject_loop]. apply rowObject_loop_is_Some.
  assert (columnKey (h :: header) 0 = h) as ->.
  { unfold columnKey; cbn. destruct h; [|done].
    exfalso. revert Hin. change ([] ∉ objectPrototypeKeys). by_evaluation. }
  unfold setProp. rewrite bool_decide_eq_false_2 by done.
  rewrite lookup_insert_eq. eauto.
Qed.

(** C6, as amended. A row never makes the construction of its entry throw
    (the identifying column being one that an assignment can store, that is
    not named [__proto__]); this holds for rows shorter than the header as for
    the others. In the entry, [reading], [additionalInfo] and [components]
    are defined strings, the empty string when the row does not reach their
    column; [meaning] has no default and is left undefined then. *)
Theorem short_row_entry (selectedLevel : Level) (header : list jstring)
    (line : jstring) :
  filenameField header ≠ protoKey →
  ∃ item,
    toItem selectedLevel (filenameField header) (rowObject header line) = Returned item
    ∧ is_Some (additionalInfo item) ∧ is_Some (components item)
    ∧ ∀ present, present = take (length (parseCSVLine line)) header →
        (utf16 "reading" ∉ present → reading item = [])
        ∧ (utf16 "additional_info" ∉ present → additionalInfo item = Some [])
        ∧ (utf16 "components" ∉ present → components item = Some [])
        ∧ (utf16 "meaning" ∉ present → meaning item = None).
Proof.
  intros Hfield%(filenameField_not_inherited header line).
  unfold toItem.
  destruct (getProp (rowObject header line) (filenameField header)) as [|s|];
    [| |done].
  all: eexists; split; [reflexivity|]; cbn [additionalInfo components reading meaning].
  all: split; [eauto|]; split; [eauto|].
  all: intros present ->; split_and!; intros Hk.
  all: unfold getProp; rewrite rowObject_missing; [done|done|done].
Qed.

Lemma short_row_entry_witness :
  let header := utf16 <$> ["path"; "reading"; "meaning"; "additional_info"; "components"]%string in
  ∃ item,
    toItem Level7 (filenameField header) (rowObject header (utf16 "img1.png")) = Returned item
    ∧ reading item = [] ∧ additionalInfo item = Some [] ∧ components item = Some []
    ∧ meaning item = None.
Proof.
  intros header.
  destruct (short_row_entry Level7 header (utf16 "img1.png"))
    as (item & Hitem & _ & _ & Hmissing); [by vm_compute|].
  exists item. split; [exact Hitem|].
  destruct (Hmissing _ eq_refl) as (Hr & Ha & Hc & Hm).
  split_and!; [apply Hr|apply Ha|apply Hc|apply Hm]; by_evaluation.
Defined.

(** C6, as stated, fails on two short rows. Under the header of Scenario 1 a
    row of two fields leaves [meaning] undefined, not empty. And in a table
    whose first column is named [__proto__], with neither [path] nor
    [filename], the dynamic read of the identifying column gives
    [Object.prototype], on which [startsWith] is not a function: the
    construction throws. *)
Lemma short_row_undefined_or_thrown :
  let header := utf16 <$> ["path"; "reading"; "meaning"; "additional_info"; "components"]%string in
  let line := utf16 "img1.png,ひかる" in
  let header' := utf16 <$> ["__proto__"; "reading"]%string in
  let line' := utf16 "img1.png" in
  length (parseCSVLine line) < length header
  ∧ toItem Level7 (filenameField header) (rowObject header line)
    = Returned {| filename := Some (utf16 "img1.png"); reading := utf16 "ひかる";
                  meaning := None; imageUrl := utf16 "/kanji/level-7/img1.png";
                  additionalInfo := Some []; components := Some [] |}
  ∧ length (parseCSVLine line') < length header'
  ∧ toItem Level7 (filenameField header') (rowObject header' line') = ThrownTypeError.
Proof. split_and!; [vm_compute; lia|by vm_compute|vm_compute; lia|by vm_compute]. Qed.

(** ** The genre filter *)

Lemma startsWith_spec p s : startsWith p s = true ↔ ∃ post, s = p ++ post.
Proof.
  revert s; induction p as [|a p IH]; intros s; cbn.
  - split; [eauto|done].
  - destruct s as [|b s].
    + split; [done|]. by intros [post ?].
    + rewrite andb_true_iff, bool_decide_eq_true, IH. split.
      * intros [-> [post ->]]. eauto.
      * intros [post [= -> ->]]. eauto.
Qed.

Lemma includes_spec s sub : includes s sub = true ↔ hasSubstring s sub.
Proof.
  unfold hasSubstring. induction s as [|c s IH]; cbn [includes].
  - rewrite orb_false_r, startsWith_spec. split.
    + intros [post H]. by exists [], post.
    + intros (pre & post & H). destruct pre; [by eauto|done].
  - rewrite orb_true_iff, startsWith_spec, IH. split.
    + intros [[post H]|(pre & post & H)].
      * by exists [], post.
      * exists (c :: pre), post. by rewrite H.
    + intros (pre & post & H). destruct pre as [|d pre].
      * left. by exists post.
      * right. injection H as -> ->. eauto.
Qed.

#[global] Instance hasSubstring_dec s sub : Decision (hasSubstring s sub).
Proof.
  refine (cast_if (decide (includes s sub = true))); by rewrite <-includes_spec.
Defined.

Lemma existsb_includes s gs :
  existsb (λ g, includes s g) gs = false ↔ Forall (λ g, ¬ hasSubstring s g) gs.
Proof.
  induction gs as [|g gs IH]; cbn.
  - split; [constructor|done].
  - rewrite orb_false_iff, Forall_cons, IH, <-includes_spec.
    destruct (includes s g).
    + split; intros [H ?]; [done|by destruct H].
    + split; intros [_ ?]; by split.
Qed.

(** C8. The genre filter returns the whole catalog for [all]; for the
    no-genre tag exactly the entries, in their order, whose tags text
    contains none of the sixteen defined genre labels; and for any other tag
    exactly the entries whose tags text contains the tag, code unit for code
    unit. *)
Theorem filterByGenre_spec (selectedGenre : jstring) (items : list Item) :
  (selectedGenre = genreAll → filterByGenre selectedGenre items = items)
  ∧ (selectedGenre = genreNone →
     filterByGenre selectedGenre items
     = filter (λ item, Forall (λ genre, ¬ hasSubstring (info item) genre) definedGenres)
         items)
  ∧ (selectedGenre ≠ genreAll → selectedGenre ≠ genreNone →
     filterByGenre selectedGenre items
     = filter (λ item, hasSubstring (info item) selectedGenre) items).
Proof.
  unfold filterByGenre. split_and!.
  - intros ->. by rewrite bool_decide_eq_true_2.
  - intros ->. rewrite bool_decide_eq_false_2 by by_evaluation.
    rewrite bool_decide_eq_true_2 by done.
    apply list_filter_iff. intros item.
    rewrite <-existsb_includes. by destruct (existsb _ _).
  - intros Hall Hnone. rewrite !bool_decide_eq_false_2 by done.
    apply list_filter_iff. intros item.
    rewrite <-includes_spec. by destruct (includes _ _).
Qed.

Lemma filterByGenre_spec_witness :
  let items := [taggedEntry "ひかる" "動物"; taggedEntry "も" "植物・藻類";
                taggedEntry "か" "その他"] in
  filterByGenre genreAll items = items
  ∧ filterByGenre genreNone items = [taggedEntry "か" "その他"]
  ∧ filterByGenre (utf16 "動物") items = [taggedEntry "ひかる" "動物"].
Proof.
  intros items.
  destruct (filterByGenre_spec genreAll items) as (Hall & _ & _).
  destruct (filterByGenre_spec genreNone items) as (_ & Hnone & _).
  destruct (filterByGenre_spec (utf16 "動物") items) as (_ & _ & Hother).
  split_and!.
  - apply Hall. reflexivity.
  - rewrite Hnone by reflexivity. by vm_compute.
  - rewrite Hother; [by vm_compute|by_evaluation|by_evaluation].
Defined.

(** ** Starting a session *)

(** C9. Starting a quiz with no catalog or an empty one changes nothing, so
    the application stays in the list mode it was in; with a non-empty
    catalog the session holds a rearrangement of the catalog, stands at
    position 0 and has the score 0 to 0. *)
Theorem startQuiz_spec (sortItems : Shuffle) (st : State) :
  (items st = None ∨ items st = Some [] →
   startQuiz sortItems st = st ∧ mode (startQuiz sortItems st) = mode st)
  ∧ (∀ catalog, items st = Some catalog → catalog ≠ [] →
     quizItems (startQuiz sortItems st) ≡ₚ catalog
     ∧ currentIndex (startQuiz sortItems st) = 0
     ∧ score (startQuiz sortItems st) = {| correct := 0; incorrect := 0 |}
     ∧ mode (startQuiz sortItems st) = QuizMode
     ∧ showResult (startQuiz sortItems st) = false
     ∧ quizFormat (startQuiz sortItems st) = quizFormat st).
Proof.
  unfold startQuiz. split.
  - by intros [-> | ->].
  - intros catalog -> Hne. destruct catalog as [|it catalog]; [done|]. cbn.
    split_and!; [apply shuffled_perm|done..].
Qed.

Lemma startQuiz_spec_witness :
  startQuiz keepOrder (loadedState []) = loadedState []
  ∧ quizItems (startQuiz keepOrder (loadedState [entry "か"; entry "き"]))
    ≡ₚ [entry "か"; entry "き"].
Proof.
  split.
  - apply (startQuiz_spec keepOrder (loadedState [])). by right.
  - by apply (startQuiz_spec keepOrder (loadedState [entry "か"; entry "き"])).
Defined.

(** C10. The session is drawn from the whole catalog: whatever genre, query
    and search mode the browsing view is set to, [startQuiz] stores the same
    working set, a rearrangement of all the loaded entries. *)
Theorem startQuiz_ignores_view (toLowerCase : jstring → jstring)
    (sortItems : Shuffle) (st : State) (genre query : jstring) (smode : SearchMode) :
  let viewed := setSearchMode smode (setSearchQuery query (setSelectedGenre genre st)) in
  quizItems (startQuiz sortItems viewed) = quizItems (startQuiz sortItems st)
  ∧ (∀ catalog, items st = Some catalog → catalog ≠ [] →
     quizItems (startQuiz sortItems viewed) ≡ₚ catalog
     ∧ (∀ item, item ∈ filteredItems toLowerCase genre query smode catalog →
        item ∈ quizItems (startQuiz sortItems viewed))).
Proof.
  cbn zeta. unfold startQuiz. cbn [items setSearchMode setSearchQuery setSelectedGenre].
  split.
  - by destruct (items st) as [[|it catalog]|].
  - intros catalog -> Hne. destruct catalog as [|it catalog]; [done|].
    cbn [quizItems setMode setScore setShowResult setUserAnswer setCurrentIndex
         setQuizItems].
    split; [apply shuffled_perm|].
    intros item Hin. rewrite (shuffled_perm sortItems).
    unfold filteredItems in Hin.
    assert (item ∈ filterByGenre genre (it :: catalog)) as Hg.
    { destruct (trim query); [done|]. by apply list_elem_of_filter in Hin as [_ ?]. }
    unfold filterByGenre in Hg.
    repeat case_bool_decide; [done|by apply list_elem_of_filter in Hg as [_ ?]..].
Qed.

Lemma startQuiz_ignores_view_witness :
  let catalog := [taggedEntry "ひかる" "動物"; taggedEntry "も" "植物・藻類"] in
  let viewed :=
    setSearchMode SearchReading
      (setSearchQuery [] (setSelectedGenre (utf16 "動物") (loadedState catalog))) in
  filteredItems (λ s, s) (utf16 "動物") [] SearchReading catalog
  = [taggedEntry "ひかる" "動物"]
  ∧ quizItems (startQuiz keepOrder viewed) ≡ₚ catalog.
Proof.
  intros catalog viewed. split; [by vm_compute|].
  by apply (startQuiz_ignores_view (λ s, s) keepOrder (loadedState catalog)
              (utf16 "動物") [] SearchReading).
Defined.

(** ** The score *)

Lemma selectFormat_score format st : score (selectFormat format st) = score st.
Proof. reflexivity. Qed.

Lemma choicesEffect_session rnd old new :
  let st := choicesEffect rnd old new in
  mode st = mode new ∧ quizItems st = quizItems new
  ∧ currentIndex st = currentIndex new ∧ showResult st = showResult new
  ∧ score st = score new.
Proof.
  cbn zeta. unfold choicesEffect.
  repeat first [done | case_match].
Qed.

Lemma scoreInvariant_effect rnd old new :
  scoreInvariant new → scoreInvariant (choicesEffect rnd old new).
Proof.
  unfold scoreInvariant.
  destruct (choicesEffect_session rnd old new) as (-> & -> & -> & -> & ->). done.
Qed.

Lemma scoreInvariant_answer st st' :
  mode st' = mode st → quizItems st' = quizItems st →
  currentIndex st' = currentIndex st → showResult st' = true →
  answered (score st') = answered (score st) + 1 →
  showResult st = false → scoreInvariant st → scoreInvariant st'.
Proof.
  unfold scoreInvariant. intros -> -> -> -> -> Hs Hinv Hm.
  destruct (Hinv Hm) as [Hlt Hans]. rewrite Hs in Hans. split; [done|]. lia.
Qed.

Lemma answered_addCorrect sc : answered (addCorrect sc) = answered sc + 1.
Proof. unfold answered; cbn; lia. Qed.

Lemma answered_addIncorrect sc : answered (addIncorrect sc) = answered sc + 1.
Proof. unfold answered; cbn; lia. Qed.

Lemma scoreInvariant_checkAnswer st :
  showResult st = false → scoreInvariant st → scoreInvariant (checkAnswer st).
Proof.
  intros Hs Hinv. unfold checkAnswer.
  destruct (quizItems st !! currentIndex st) as [item|]; [|done].
  apply (scoreInvariant_answer st); [done..| |done|done]. cbn [score setScore].
  destruct (answerMatches _ _);
    [apply answered_addCorrect|apply answered_addIncorrect].
Qed.

Lemma scoreInvariant_nextQuestion st :
  showResult st = true → scoreInvariant st → scoreInvariant (nextQuestion st).
Proof.
  intros Hs Hinv. unfold nextQuestion. case_bool_decide as Hlt.
  - unfold scoreInvariant. cbn. intros Hm. destruct (Hinv Hm) as [_ Hans].
    rewrite Hs in Hans. split; lia.
  - by unfold scoreInvariant.
Qed.

(** With the rule of the specification in force, every step keeps the
    invariant. *)
Lemma scoreInvariant_step st a st' :
  scoreInvariant st → stepWith enabledBySpec st a = Some st' → scoreInvariant st'.
Proof.
  destruct a as [rnd ev]. unfold stepWith, enabledBySpec.
  intros Hinv. destruct (enabled ev st) eqn:Hen; [|done]. cbn [andb].
  destruct ev; cbn [handle]; cbn in Hen;
    repeat match type of Hen with
           | _ && _ = true => apply andb_true_iff in Hen as [Hen ?]
           end;
    repeat match goal with
           | H : bool_decide _ = true |- _ => apply bool_decide_eq_true in H
           | H : negb _ = true |- _ => apply negb_true_iff in H
           end.
  - (* StartQuiz *)
    intros [= <-]. apply scoreInvariant_effect. unfold startQuiz.
    destruct (items st) as [[|it catalog]|] eqn:Hitems; [done| |done].
    unfold scoreInvariant. cbn. intros _. split; [|done].
    rewrite (shuffled_perm (sortItems rnd)). cbn; lia.
  - (* BackToList *)
    intros [= <-]. by apply scoreInvariant_effect.
  - (* SelectFormat *)
    destruct (negb (showResult st)) eqn:Hs; [|done]. apply negb_true_iff in Hs.
    intros [= <-]. apply scoreInvariant_effect.
    unfold scoreInvariant. cbn. intros Hm. destruct (Hinv Hm) as [? Hans].
    by rewrite Hs in Hans.
  - (* TypeAnswer *)
    intros [= <-]. apply scoreInvariant_effect. by destruct st.
  - (* PressEnter *)
    intros [= <-]. apply scoreInvariant_effect. unfold pressEnter.
    replace (showResult st) with false. by apply scoreInvariant_checkAnswer.
  - (* Submit *)
    intros [= <-]. by apply scoreInvariant_effect, scoreInvariant_checkAnswer.
  - (* GiveUp *)
    intros [= <-]. apply scoreInvariant_effect. unfold giveUp.
    destruct (quizItems st !! currentIndex st); [|done].
    apply (scoreInvariant_answer st); [done..|apply answered_addIncorrect|done|done].
  - (* ClickChoice *)
    intros [= <-]. apply scoreInvariant_effect. unfold clickChoice.
    replace (showResult st) with false.
    apply (scoreInvariant_answer st); [done..| |done|done]. cbn [score setScore].
    case_bool_decide; [apply answered_addCorrect|apply answered_addIncorrect].
  - (* NextQuestion *)
    intros [= <-]. by apply scoreInvariant_effect, scoreInvariant_nextQuestion.
Qed.

(** Under the rule of the specification the claim on the score holds in every
    state a session can reach: no question is counted twice. *)
Lemma scoreInvariant_runWith st trace st' :
  scoreInvariant st → runWith enabledBySpec st trace = Some st' → scoreInvariant st'.
Proof.
  revert st. induction trace as [|a trace IH]; intros st Hinv; cbn.
  - by intros [= <-].
  - destruct (stepWith enabledBySpec st a) as [st1|] eqn:Hstep; [|done].
    apply IH. by eapply scoreInvariant_step.
Qed.

(** C1, on the component as it is. The format buttons are on the page after
    an answer too, and their handler clears [showResult]: giving up on the
    first question, switching to the choice format and clicking a choice
    counts that question twice, the score reaching 2 at position 0. Changing
    the format itself leaves the score alone. *)
Theorem score_counts_question_twice :
  let r := plainRandomness in
  (λ st, (currentIndex st, score st, showResult st))
    <$> run (loadedState [entry "か"; entry "き"])
          [(r, StartQuiz); (r, GiveUp); (r, SelectFormat ChoiceFormat); (r, ClickChoice 0)]
  = Some (0, {| correct := 1; incorrect := 1 |}, true)
  ∧ runWith enabledBySpec (loadedState [entry "か"; entry "き"])
      [(r, StartQuiz); (r, GiveUp); (r, SelectFormat ChoiceFormat); (r, ClickChoice 0)]
    = None
  ∧ ∀ format st, score (selectFormat format st) = score st.
Proof. split_and!; [by vm_compute|by vm_compute|done]. Qed.

(** * Further properties of the component *)

(** ** [parseCSVLine] *)

Lemma split_nonempty sep s : split sep s ≠ [].
Proof.
  destruct s as [|c t]; [done|]. cbn.
  case_bool_decide; [done|]. by destruct (split sep t).
Qed.

Lemma parseCSVLine_loop_unquoted line result current :
  dquote ∉ line →
  parseCSVLine_loop line result current false
  = result ++ match split comma line with
              | p :: ps => (current ++ p) :: ps
              | [] => [current]
              end.
Proof.
  revert result current. induction line as [|c t IH]; intros result current Hq.
  - cbn. by rewrite (right_id [] (++)).
  - apply not_elem_of_cons in Hq as [Hc Hq]. cbn [parseCSVLine_loop split].
    rewrite bool_decide_eq_false_2 by done.
    case_bool_decide as Hcomma; cbn [andb negb].
    + rewrite IH by done. pose proof (split_nonempty comma t).
      destruct (split comma t) as [|p ps]; [done|].
      by rewrite (right_id [] (++)), <-(assoc (++)).
    + rewrite IH by done. pose proof (split_nonempty comma t).
      destruct (split comma t) as [|p ps]; [done|].
      by rewrite <-(assoc (++)).
Qed.

(** X1. On a line without double quotes, [parseCSVLine] is [line.split(',')]. *)
Theorem parseCSVLine_unquoted (line : jstring) :
  dquote ∉ line → parseCSVLine line = split comma line.
Proof.
  intros Hq. unfold parseCSVLine. rewrite parseCSVLine_loop_unquoted by done.
  pose proof (split_nonempty comma line). by destruct (split comma line).
Qed.

Lemma parseCSVLine_unquoted_witness :
  (dquote ∉ utf16 "img1.png,ひかる,,動物")
  ∧ parseCSVLine (utf16 "img1.png,ひかる,,動物")
    = [utf16 "img1.png"; utf16 "ひかる"; []; utf16 "動物"].
Proof.
  assert (dquote ∉ utf16 "img1.png,ひかる,,動物") as Hq by by_evaluation.
  split; [exact Hq|]. by rewrite (parseCSVLine_unquoted _ Hq).
Defined.

Lemma parseCSVLine_loop_no_dquote line result current inQuotes :
  Forall (λ f, dquote ∉ f) result → dquote ∉ current →
  Forall (λ f, dquote ∉ f) (parseCSVLine_loop line result current inQuotes).
Proof.
  revert result current inQuotes.
  induction line as [|c t IH]; intros result current inQuotes Hr Hc; cbn.
  - apply Forall_app. split; [done|]. by constructor.
  - case_bool_decide as Hq; [by apply IH|].
    destruct (bool_decide (c = comma) && negb inQuotes).
    + apply IH; [|apply not_elem_of_nil].
      apply Forall_app. split; [done|]. by constructor.
    + apply IH; [done|]. rewrite not_elem_of_app, not_elem_of_cons.
      split_and!; [done|by intros <-|apply not_elem_of_nil].
Qed.

(** X2. No field that [parseCSVLine] returns holds a double quote: the quotes
    switch the mode and are never copied, paired or not. *)
Theorem parseCSVLine_drops_quotes (line : jstring) :
  Forall (λ field, dquote ∉ field) (parseCSVLine line).
Proof.
  apply parseCSVLine_loop_no_dquote; [constructor|apply not_elem_of_nil].
Qed.

Lemma parseCSVLine_loop_inside f rest result current :
  dquote ∉ f →
  parseCSVLine_loop (f ++ dquote :: rest) result current true
  = parseCSVLine_loop rest result (current ++ f) false.
Proof.
  revert current. induction f as [|c f IH]; intros current Hq.
  - cbn. rewrite bool_decide_eq_true_2 by done. by rewrite (right_id [] (++)).
  - apply not_elem_of_cons in Hq as [Hc Hq]. cbn.
    rewrite bool_decide_eq_false_2 by done. rewrite andb_false_r.
    rewrite IH by done. by rewrite <-(assoc (++)).
Qed.

Lemma parseCSVLine_loop_quoted fields result :
  fields ≠ [] → Forall (λ f, dquote ∉ f) fields →
  parseCSVLine_loop (joinWith [comma] (quoteField <$> fields)) result [] false
  = result ++ fields.
Proof.
  revert result. induction fields as [|f fields IH]; intros result Hne Hq; [done|].
  apply Forall_cons in Hq as [Hf Hq]. destruct fields as [|g fields].
  - cbn -[parseCSVLine_loop]. unfold quoteField.
    cbn [parseCSVLine_loop]. rewrite bool_decide_eq_true_2 by done. cbn [negb].
    by rewrite parseCSVLine_loop_inside.
  - change (joinWith [comma] (quoteField <$> f :: g :: fields))
      with (quoteField f ++ [comma] ++ joinWith [comma] (quoteField <$> g :: fields)).
    unfold quoteField at 1. cbn [app parseCSVLine_loop].
    rewrite bool_decide_eq_true_2 by done. cbn [negb].
    rewrite <-(assoc (++)). cbn [app]. rewrite parseCSVLine_loop_inside by done.
    cbn [parseCSVLine_loop]. rewrite bool_decide_eq_false_2 by done.
    rewrite bool_decide_eq_true_2 by done. cbn [andb negb].
    rewrite IH by done. by rewrite <-(assoc (++)).
Qed.

(** X3. Fields written between double quotes and joined by commas are read back
    as they were, commas inside them included; the one thing a field cannot
    hold is a double quote. *)
Theorem parseCSVLine_quoted_fields (fields : list jstring) :
  fields ≠ [] → Forall (λ f, dquote ∉ f) fields →
  parseCSVLine (joinWith [comma] (quoteField <$> fields)) = fields.
Proof.
  intros Hne Hq. unfold parseCSVLine. by rewrite parseCSVLine_loop_quoted.
Qed.

Lemma parseCSVLine_quoted_fields_witness :
  parseCSVLine (joinWith [comma] (quoteField <$> [utf16 "a,b"; []; utf16 "日 光"]))
  = [utf16 "a,b"; []; utf16 "日 光"].
Proof.
  apply parseCSVLine_quoted_fields; [done|].
  apply (bool_decide_unpack _). vm_compute. exact I.
Defined.

(** ** [load]: the lines of the text *)

Lemma splitLines_plain l :
  10%N ∉ l → 13%N ∉ l → splitLines l = [l].
Proof.
  induction l as [|c l IH]; [done|].
  intros [H10 Hl10]%not_elem_of_cons [H13 Hl13]%not_elem_of_cons.
  cbn [splitLines].
  rewrite (bool_decide_eq_false_2 (c = 10%N)), (bool_decide_eq_false_2 (c = 13%N))
    by congruence.
  by rewrite IH.
Qed.

Lemma splitLines_line_feed l rest :
  10%N ∉ l → 13%N ∉ l → splitLines (l ++ 10%N :: rest) = l :: splitLines rest.
Proof.
  induction l as [|c l IH].
  - intros _ _. cbn. by rewrite bool_decide_eq_true_2.
  - intros [H10 Hl10]%not_elem_of_cons [H13 Hl13]%not_elem_of_cons.
    cbn [app splitLines].
    rewrite (bool_decide_eq_false_2 (c = 10%N)), (bool_decide_eq_false_2 (c = 13%N))
      by congruence.
    by rewrite IH.
Qed.

Lemma splitLines_carriage_return l rest :
  10%N ∉ l → 13%N ∉ l →
  splitLines (l ++ 13%N :: 10%N :: rest) = l :: splitLines rest.
Proof.
  induction l as [|c l IH].
  - intros _ _. cbn [app splitLines].
    rewrite (bool_decide_eq_false_2 (13%N = 10%N)) by done.
    by rewrite !bool_decide_eq_true_2.
  - intros [H10 Hl10]%not_elem_of_cons [H13 Hl13]%not_elem_of_cons.
    cbn [app splitLines].
    rewrite (bool_decide_eq_false_2 (c = 10%N)), (bool_decide_eq_false_2 (c = 13%N))
      by congruence.
    by rewrite IH.
Qed.

(** X4. Lines that hold neither a line feed nor a carriage return, joined by
    line feeds or by carriage return and line feed, are split back into the
    same lines. *)
Theorem splitLines_joined (lines : list jstring) :
  lines ≠ [] → Forall (λ l, (10%N ∉ l) ∧ (13%N ∉ l)) lines →
  splitLines (joinWith [10%N] lines) = lines
  ∧ splitLines (joinWith [13%N; 10%N] lines) = lines.
Proof.
  induction lines as [|l lines IH]; [done|]. intros _ Hl.
  apply Forall_cons in Hl as [[H10 H13] Hl]. destruct lines as [|l' lines].
  - cbn. by rewrite splitLines_plain.
  - destruct (IH ltac:(done) Hl) as [IH1 IH2].
    change (joinWith [10%N] (l :: l' :: lines))
      with (l ++ 10%N :: joinWith [10%N] (l' :: lines)).
    change (joinWith [13%N; 10%N] (l :: l' :: lines))
      with (l ++ 13%N :: 10%N :: joinWith [13%N; 10%N] (l' :: lines)).
    by rewrite splitLines_line_feed, splitLines_carriage_return, IH1, IH2.
Qed.

Lemma splitLines_joined_witness :
  splitLines (joinWith [13%N; 10%N] [utf16 "path,reading"; utf16 "a.png,か"; []])
  = [utf16 "path,reading"; utf16 "a.png,か"; []].
Proof.
  apply (splitLines_joined [utf16 "path,reading"; utf16 "a.png,か"; []]); [done|].
  apply (bool_decide_unpack _). vm_compute. exact I.
Defined.

(** ** [load]: from a row to an entry *)

Lemma trim_idempotent x : trim (trim x) = trim x.
Proof.
  destruct (trim_decompose x) as (w1 & w2 & H1 & H2 & Hx).
  rewrite Hx at 2. by rewrite trim_context.
Qed.

Lemma rowObject_loop_trimmed header i cols obj :
  (∀ k v, obj !! k = Some v → trim v = v) →
  ∀ k v, rowObject_loop header i cols obj !! k = Some v → trim v = v.
Proof.
  revert i obj. induction cols as [|col rest IH]; intros i obj Hobj; [done|].
  cbn. apply IH. intros k v. unfold setProp. case_bool_decide; [apply Hobj|].
  destruct (decide (columnKey header i = k)) as [->|Hne].
  - rewrite lookup_insert_eq. intros [= <-]. apply trim_idempotent.
  - rewrite lookup_insert_ne by done. apply Hobj.
Qed.

Lemma getProp_trimmed header line k v :
  getProp (rowObject header line) k = JString v → trim v = v.
Proof.
  unfold getProp. destruct (rowObject header line !! k) as [v'|] eqn:Hk.
  - intros [= <-]. revert Hk. unfold rowObject.
    apply rowObject_loop_trimmed. intros k' v'' Hempty.
    by rewrite lookup_empty in Hempty.
  - by case_bool_decide.
Qed.

Lemma stringOrEmpty_trimmed header line k :
  trim (stringOrEmpty (getProp (rowObject header line) k))
  = stringOrEmpty (getProp (rowObject header line) k).
Proof.
  destruct (getProp (rowObject header line) k) as [|v|] eqn:Hk; [done| |done].
  cbn. by eapply getProp_trimmed.
Qed.

Lemma orElse_twice a : orElse a (orElse a []) = a.
Proof. by destruct a. Qed.

(** X5. Every text field of a parsed entry is free of white space at both ends:
    the row object holds trimmed values only, and the defaults are empty. *)
Theorem entry_fields_trimmed (selectedLevel : Level) (header : list jstring)
    (line : jstring) (item : Item) :
  toItem selectedLevel (filenameField header) (rowObject header line) = Returned item →
  trim (reading item) = reading item
  ∧ ∀ f, filename item = Some f ∨ meaning item = Some f
         ∨ additionalInfo item = Some f ∨ components item = Some f →
         trim f = f.
Proof.
  unfold toItem. intros Hitem.
  assert (∃ url,
    item = {| filename := stringOrUndefined
                (getProp (rowObject header line) (filenameField header));
              reading := stringOrEmpty (getProp (rowObject header line) (utf16 "reading"));
              meaning := stringOrUndefined
                (getProp (rowObject header line) (utf16 "meaning"));
              imageUrl := url;
              additionalInfo := Some (stringOrEmpty
                (getProp (rowObject header line) (utf16 "additional_info")));
              components := Some (stringOrEmpty
                (getProp (rowObject header line) (utf16 "components"))) |})
    as [url ->].
  { rewrite !orElse_twice in Hitem.
    destruct (getProp (rowObject header line) (filenameField header));
      [| |done]; injection Hitem as <-; eauto. }
  cbn [reading filename meaning additionalInfo components].
  split; [apply stringOrEmpty_trimmed|].
  intros f [Hf|[Hf|[Hf|Hf]]].
  - destruct (getProp _ (filenameField header)) eqn:Hk; [done| |done].
    injection Hf as <-. by eapply getProp_trimmed.
  - destruct (getProp _ (utf16 "meaning")) eqn:Hk; [done| |done].
    injection Hf as <-. by eapply getProp_trimmed.
  - injection Hf as <-. apply stringOrEmpty_trimmed.
  - injection Hf as <-. apply stringOrEmpty_trimmed.
Qed.

Lemma entry_fields_trimmed_witness :
  match toItem Level7 (filenameField [utf16 "path"; utf16 "reading"])
          (rowObject [utf16 "path"; utf16 "reading"] (utf16 " a.png ,　ひかる ")) with
  | Returned item => reading item = utf16 "ひかる" ∧ trim (reading item) = reading item
  | ThrownTypeError => False
  end.
Proof.
  destruct (toItem Level7 (filenameField [utf16 "path"; utf16 "reading"])
              (rowObject [utf16 "path"; utf16 "reading"] (utf16 " a.png ,　ひかる ")))
    as [item|] eqn:Hitem.
  - split; [by vm_compute in Hitem; injection Hitem as <-|].
    by destruct (entry_fields_trimmed _ _ _ _ Hitem) as [Htrim _].
  - by vm_compute in Hitem.
Defined.

Lemma startsWith_levelBase selectedLevel x :
  startsWith [slash] (levelBase selectedLevel ++ x) = true.
Proof.
  assert (∃ rest, levelBase selectedLevel = slash :: rest) as [rest ->]
    by (eexists; reflexivity).
  cbn [app startsWith]. by rewrite bool_decide_eq_true_2.
Qed.

Lemma toItem_image selectedLevel field d item :
  toItem selectedLevel field d = Returned item →
  filename item = stringOrUndefined (getProp d field)
  ∧ imageUrl item
    = match getProp d field with
      | JString f => if startsWith [slash] f then f else levelBase selectedLevel ++ f
      | _ => levelBase selectedLevel ++ utf16 "undefined"
      end.
Proof.
  unfold toItem. fold (levelBase selectedLevel).
  destruct (getProp d field) as [|f|]; [| |done]; intros Hitem; symmetry in Hitem.
  all: split;
    [exact (f_equal (λ r, match r with Returned i => filename i | _ => None end) Hitem)
    |exact (f_equal (λ r, match r with Returned i => imageUrl i | _ => [] end) Hitem)].
Qed.

(** X6. The image location of a parsed entry is always absolute: the identifying
    field as it is when it starts with a slash, and otherwise joined to the
    location of the level. *)
Theorem entry_image_url (selectedLevel : Level) (field : jstring)
    (d : gmap jstring jstring) (item : Item) :
  toItem selectedLevel field d = Returned item →
  startsWith [slash] (imageUrl item) = true
  ∧ (∀ f, filename item = Some f →
       imageUrl item = if startsWith [slash] f then f else levelBase selectedLevel ++ f)
  ∧ (filename item = None →
       imageUrl item = levelBase selectedLevel ++ utf16 "undefined").
Proof.
  intros [Hname ->]%toItem_image. rewrite Hname.
  destruct (getProp d field) as [|f|]; cbn [stringOrUndefined].
  - split_and!; [apply startsWith_levelBase|done|done].
  - split_and!; [|by intros ? [= <-]|done].
    destruct (startsWith [slash] f) eqn:Hf; [done|apply startsWith_levelBase].
  - split_and!; [apply startsWith_levelBase|done|done].
Qed.

Lemma entry_image_url_witness :
  match toItem Level8 (utf16 "path") {[ utf16 "path" := utf16 "/shared/a.png" ]} with
  | Returned item => imageUrl item = utf16 "/shared/a.png"
  | ThrownTypeError => False
  end.
Proof.
  destruct (toItem Level8 (utf16 "path") {[ utf16 "path" := utf16 "/shared/a.png" ]})
    as [item|] eqn:Hitem.
  - destruct (entry_image_url _ _ _ _ Hitem) as (_ & Hurl & _).
    assert (filename item = Some (utf16 "/shared/a.png")) as Hf
      by (by vm_compute in Hitem; injection Hitem as <-).
    by rewrite (Hurl _ Hf).
  - by vm_compute in Hitem.
Defined.

(** The value stored for column [j], when no later column of the row is
    stored under the same key. *)
Lemma rowObject_loop_lookup header i cols obj j c k :
  cols !! j = Some c → columnKey header (i + j) = k → k ≠ protoKey →
  (∀ j', j < j' < length cols → columnKey header (i + j') ≠ k) →
  rowObject_loop header i cols obj !! k = Some (trim c).
Proof.
  revert i obj j. induction cols as [|col rest IH]; intros i obj j Hc Hk Hp Hlater;
    [done|].
  cbn [rowObject_loop]. destruct j as [|j].
  - injection Hc as ->. rewrite Nat.add_0_r in Hk.
    rewrite rowObject_loop_lookup_ne.
    + unfold setProp. rewrite bool_decide_eq_false_2 by congruence.
      by rewrite Hk, lookup_insert_eq.
    + intros j' Hj'. replace (S i + j') with (i + S j') by lia.
      apply Hlater. cbn; lia.
  - apply (IH (S i) _ j); [done|by replace (S i + j) with (i + S j) by lia|done|].
    intros j' Hj'. replace (S i + j') with (i + S j') by lia.
    apply Hlater. cbn; lia.
Qed.

Lemma rowObject_column header line j c k :
  header !! j = Some k → (∀ j', header !! j' = Some k → j' = j) →
  k ≠ [] → take 3 k ≠ utf16 "col" → k ≠ protoKey →
  parseCSVLine line !! j = Some c →
  getProp (rowObject header line) k = JString (trim c).
Proof.
  intros Hj Huniq Hne Hcol Hproto Hc. unfold getProp, rowObject.
  rewrite (rowObject_loop_lookup header 0 _ ∅ j c k); [done|done| |done|].
  - change (0 + j) with j. unfold columnKey. rewrite Hj. by destruct k.
  - intros j' Hj' Hkey. apply columnKey_header in Hkey; [|done].
    apply Huniq in Hkey. lia.
Qed.

(** X7. A column the header names once gives its field, trimmed, to the entry:
    [reading], [additional_info] and [components] as they are (the empty
    field being the default as well), [meaning] as a defined string. *)
Theorem entry_fields_of_row (selectedLevel : Level) (header : list jstring)
    (line : jstring) (item : Item) (j : nat) (c : jstring) :
  toItem selectedLevel (filenameField header) (rowObject header line) = Returned item →
  parseCSVLine line !! j = Some c →
  (∀ j', header !! j' = header !! j → j' = j) →
  (header !! j = Some (utf16 "reading") → reading item = trim c)
  ∧ (header !! j = Some (utf16 "meaning") → meaning item = Some (trim c))
  ∧ (header !! j = Some (utf16 "additional_info") → additionalInfo item = Some (trim c))
  ∧ (header !! j = Some (utf16 "components") → components item = Some (trim c)).
Proof.
  unfold toItem. intros Hitem Hc Huniq. rewrite !orElse_twice in Hitem.
  assert (∀ k, header !! j = Some k → k ≠ [] → take 3 k ≠ utf16 "col" →
               k ≠ protoKey → getProp (rowObject header line) k = JString (trim c))
    as Hget.
  { intros k Hk ???. eapply rowObject_column; [done| |done..].
    intros j' Hj'. apply Huniq. congruence. }
  destruct (getProp (rowObject header line) (filenameField header));
    [| |done]; injection Hitem as <-;
    cbn [reading meaning additionalInfo components];
    split_and!; intros Hk; by rewrite (Hget _ Hk).
Qed.

Lemma entry_fields_of_row_witness :
  let header := utf16 <$> ["path"; "reading"; "meaning"; "additional_info"; "components"]%string in
  match toItem Level7 (filenameField header)
          (rowObject header (utf16 "img1.png, 'てる'、ひかる ,,動物,日 光")) with
  | Returned item => reading item = utf16 "'てる'、ひかる"
  | ThrownTypeError => False
  end.
Proof.
  intros header.
  destruct (toItem Level7 (filenameField header)
              (rowObject header (utf16 "img1.png, 'てる'、ひかる ,,動物,日 光")))
    as [item|] eqn:Hitem.
  - destruct (entry_fields_of_row Level7 header _ item 1 (utf16 " 'てる'、ひかる ") Hitem)
      as (Hreading & _); [reflexivity| |by apply Hreading].
    intros [|[|[|[|[|j']]]]]; by vm_compute.
  - by vm_compute in Hitem.
Defined.

Lemma toItem_returns selectedLevel field d :
  getProp d field ≠ JInherited → ∃ item, toItem selectedLevel field d = Returned item.
Proof. unfold toItem. destruct (getProp d field); [eauto..|done]. Qed.

Lemma mapCompletion_returns {A B} (f : A → completion B) l :
  (∀ a, a ∈ l → ∃ b, f a = Returned b) →
  ∃ bs, mapCompletion f l = Returned bs ∧ length bs = length l.
Proof.
  induction l as [|a l IH]; intros Hf; [by exists []|].
  destruct (Hf a) as [b Hb]; [left|].
  destruct IH as (bs & Hbs & Hlen); [intros a' Ha'; apply Hf; by right|].
  exists (b :: bs). cbn. by rewrite Hb, Hbs, Hlen.
Qed.

(** X8. A fetched text whose identifying column can be stored (any name but
    [__proto__]) always gives a catalog, with one entry for each non-empty
    line after the first; empty lines are skipped and no row is rejected. *)
Theorem parseCatalog_returns (toLowerCase : jstring → jstring)
    (selectedLevel : Level) (text : jstring) :
  filenameField (headerOf toLowerCase text) ≠ protoKey →
  ∃ catalog,
    parseCatalog toLowerCase selectedLevel text = Returned catalog
    ∧ length catalog = length (filter (λ l, l ≠ []) (splitLines text)) - 1.
Proof.
  intros Hfield. unfold parseCatalog. fold (headerOf toLowerCase text).
  destruct (mapCompletion_returns
              (toItem selectedLevel (filenameField (headerOf toLowerCase text)))
              (rowObject (headerOf toLowerCase text)
                 <$> tail (filter (λ l, l ≠ []) (splitLines text))))
    as (catalog & Hcat & Hlen).
  - intros d (line & -> & _)%list_elem_of_fmap.
    by apply toItem_returns, filenameField_not_inherited.
  - exists catalog. split; [done|].
    rewrite Hlen, length_fmap. destruct (filter _ (splitLines text)); cbn; lia.
Qed.

Lemma parseCatalog_returns_witness :
  ∃ catalog,
    parseCatalog (λ s, s) Level7
      (utf16 "path,reading" ++ [10; 10]%N ++ utf16 "a.png,か" ++ [13; 10]%N
         ++ utf16 "b.png" ++ [10]%N) = Returned catalog
    ∧ length catalog = 2.
Proof.
  destruct (parseCatalog_returns (λ s, s) Level7
    (utf16 "path,reading" ++ [10; 10]%N ++ utf16 "a.png,か" ++ [13; 10]%N
       ++ utf16 "b.png" ++ [10]%N)) as (catalog & Hcat & Hlen); [by vm_compute|].
  exists catalog. split; [exact Hcat|]. rewrite Hlen. by vm_compute.
Defined.

(** ** The reading annotation, further *)

Lemma plainSpan_Forall (P : Segment → Prop) t :
  (t ≠ [] → P {| text := t; emphasized := false |}) → Forall P (plainSpan t).
Proof. destruct t; [constructor|]. intros H. repeat constructor. by apply H. Qed.

(** X9. No segment of a rendered reading is empty, and an emphasized segment
    holds no delimiter. *)
Theorem render_segments_wellformed (s : jstring) :
  Forall (λ seg, text seg ≠ [] ∧ (emphasized seg = true → apostrophe ∉ text seg))
    (formatReadingWithOkurigana s).
Proof.
  induction s as [s He|s m He IH] using (exec_ind true);
    rewrite formatReadingWithOkurigana_unfold, He.
  - by apply plainSpan_Forall.
  - apply exec_Some in He as (_ & Hg & Hne & _).
    apply Forall_app. split; [by apply plainSpan_Forall|].
    constructor; [|done]. cbn. auto.
Qed.

Lemma sublist_removeApostrophe s : s `sublist_of` apostrophe :: s.
Proof. by apply sublist_cons. Qed.

(** X10. Rendering only ever drops delimiters: the rendered text is the reading
    with some of its units left out, and with the delimiters removed from
    both they are equal. Nothing else is lost, moved or added, whether the
    delimiters are balanced or not. *)
Theorem render_keeps_text (s : jstring) :
  renderedText s `sublist_of` s
  ∧ removeApostrophes (renderedText s) = removeApostrophes s.
Proof.
  induction s as [s He|s m He [IH1 IH2]] using (exec_ind true);
    rewrite renderedText_unfold, He; [done|].
  apply exec_Some in He as (Hs & _). split.
  - rewrite Hs. apply sublist_app; [done|].
    apply sublist_cons, sublist_app; [done|]. by apply sublist_cons.
  - rewrite (f_equal removeApostrophes Hs).
    rewrite !removeApostrophes_app, removeApostrophes_apostrophe,
      removeApostrophes_app, removeApostrophes_apostrophe. by rewrite IH2.
Qed.

Lemma apostrophes_zero s : apostrophes s = 0 → apostrophe ∉ s.
Proof.
  induction s as [|c s IH]; [intros _; apply not_elem_of_nil|].
  rewrite apostrophes_cons. case_bool_decide as Hc; [lia|].
  intros Hz. apply not_elem_of_cons. split; [congruence|]. apply IH. lia.
Qed.

Lemma extractReadingCore_parity s :
  Nat.even (apostrophes (extractReadingCore s)) = Nat.even (apostrophes s).
Proof.
  unfold extractReadingCore.
  induction s as [s He|s m He IH] using (exec_ind false);
    rewrite removeMatches_unfold, He; [done|].
  apply exec_Some in He as (Hs & Hg & _ & Hb).
  rewrite (f_equal apostrophes Hs).
  rewrite !apostrophes_app, !apostrophes_cons, apostrophes_app, apostrophes_cons.
  rewrite !bool_decide_eq_true_2, (apostrophes_none (group1 m)) by done.
  rewrite Nat.even_add, IH, Nat.even_add.
  replace (1 + (0 + (1 + apostrophes (after m)))) with (S (S (apostrophes (after m))))
    by lia.
  done.
Qed.

(** X11. Of the delimiters the core keeps none when the reading is balanced, and
    exactly one, the unpaired last, when it is not. *)
Theorem extractReadingCore_apostrophes (s : jstring) :
  apostrophes (extractReadingCore s) = if balanced s then 0 else 1.
Proof.
  pose proof (extractReadingCore_few s) as Hfew.
  pose proof (extractReadingCore_parity s) as Hpar. unfold balanced.
  destruct (Nat.even (apostrophes s));
    destruct (apostrophes (extractReadingCore s)) as [|[|n]]; done || lia.
Qed.

(** X12. The core is the reading with some units left out, in the order they had. *)
Theorem extractReadingCore_sublist (s : jstring) :
  extractReadingCore s `sublist_of` s.
Proof.
  unfold extractReadingCore.
  induction s as [s He|s m He IH] using (exec_ind false);
    rewrite removeMatches_unfold, He; [done|].
  apply exec_Some in He as (Hs & _). rewrite Hs.
  apply sublist_app; [done|]. apply sublist_cons.
  rewrite <-(app_nil_l (removeMatches false (after m))).
  apply sublist_app; [apply sublist_nil_l|]. by apply sublist_cons.
Qed.

(** X13. After a balanced reading the core of what follows is independent of it:
    the core of a concatenation is the concatenation of the cores. *)
Theorem extractReadingCore_app (s t : jstring) :
  balanced s = true →
  extractReadingCore (s ++ t) = extractReadingCore s ++ extractReadingCore t.
Proof.
  unfold balanced.
  induction s as [s He|s m He IH] using (exec_ind false); intros Hb.
  - apply exec_star_None in He.
    assert (apostrophes s = 0) as Hz by (destruct (apostrophes s) as [|[|n]]; done || lia).
    rewrite (extractReadingCore_id s) by lia.
    by apply extractReadingCore_none_app, apostrophes_zero.
  - pose proof He as (Hs & Hg & _ & Hbefore)%exec_Some.
    unfold extractReadingCore at 1 2.
    rewrite (removeMatches_unfold false s), He.
    assert (s ++ t
            = before m ++ apostrophe :: group1 m ++ apostrophe :: (after m ++ t)) as ->.
    { rewrite Hs at 1. by rewrite <-!(assoc (++)); cbn; rewrite <-!(assoc (++)). }
    rewrite removeMatches_unfold, exec_star_intro by auto. cbn [before after].
    fold (extractReadingCore (after m ++ t)). rewrite IH; [by rewrite (assoc (++))|].
    revert Hb. rewrite (f_equal apostrophes Hs).
    rewrite !apostrophes_app, !apostrophes_cons, apostrophes_app, apostrophes_cons.
    rewrite !bool_decide_eq_true_2, (apostrophes_none (group1 m)),
      (apostrophes_none (before m)) by auto.
    by replace (0 + (1 + (0 + (1 + apostrophes (after m)))))
      with (S (S (apostrophes (after m)))) by lia.
Qed.

Lemma extractReadingCore_app_witness :
  extractReadingCore (utf16 "うつく'しい'、" ++ utf16 "は'え'")
  = extractReadingCore (utf16 "うつく'しい'、") ++ extractReadingCore (utf16 "は'え'").
Proof. by apply extractReadingCore_app. Defined.


Lemma filter_plainSpan_emphasized t :
  filter (λ seg, emphasized seg = true) (plainSpan t) = [].
Proof. by destruct t. Qed.




Lemma emphasizedSegments_execAll s :
  emphasizedSegments s
  = (λ m, {| text := group1 m; emphasized := true |}) <$> execAll true s.
Proof.
  unfold emphasizedSegments.
  induction s as [s He|s m He IH] using (exec_ind true);
    rewrite formatReadingWithOkurigana_unfold, (execAll_step true s), He.
  - apply filter_plainSpan_emphasized.
  - rewrite filter_app, filter_plainSpan_emphasized, filter_cons_True by done.
    cbn. by rewrite IH.
Qed.

Lemma execAll_groups b s : Forall (λ m, apostrophe ∉ group1 m) (execAll b s).
Proof.
  induction s as [s He|s m He IH] using (exec_ind b);
    rewrite (execAll_step b s), He; [constructor|].
  apply exec_Some in He as (_ & Hg & _). by constructor.
Qed.

(** X15. The search by reading looks at exactly the text that is rendered
    emphasized: an entry matches when it has an emphasized segment and the
    lower-cased text of its emphasized segments contains the query. *)
Theorem matchesSearch_reading (toLowerCase : jstring → jstring)
    (query : jstring) (item : Item) :
  matchesSearch toLowerCase SearchReading query item
  = bool_decide (emphasizedSegments (reading item) ≠ [])
    && includes (toLowerCase (mjoin (text <$> emphasizedSegments (reading item)))) query.
Proof.
  rewrite emphasizedSegments_execAll. unfold matchesSearch, matchOkurigana.
  pose proof (execAll_groups true (reading item)) as Hg.
  destruct (execAll true (reading item)) as [|m ms]; [done|].
  rewrite bool_decide_eq_true_2 by done. cbn [andb]. do 2 f_equal.
  induction Hg as [|m' ms' Hm _ IH]; [done|].
  cbn [fmap list_fmap mjoin list_join text]. f_equal; [|apply IH].
  rewrite removeApostrophes_apostrophe, removeApostrophes_app,
    removeApostrophes_apostrophe, removeApostrophes_none by done.
  apply (right_id [] (++)).
Qed.

Lemma exec_plus_None_few s : apostrophes s ≤ 1 → exec true s = None.
Proof.
  intros Hfew. destruct (exec true s) as [m|] eqn:He; [|done].
  apply exec_Some in He as (Hs & _). revert Hfew.
  rewrite (f_equal apostrophes Hs).
  rewrite apostrophes_app, apostrophes_cons, apostrophes_app, apostrophes_cons.
  rewrite !bool_decide_eq_true_2 by done. lia.
Qed.

(** X16. A search by reading with a query that is not blank never lists an entry
    whose reading has fewer than two delimiters: it has no emphasized text to
    search. *)
Theorem search_reading_needs_span (toLowerCase : jstring → jstring)
    (selectedGenre searchQuery : jstring) (items : list Item) (item : Item) :
  trim searchQuery ≠ [] → apostrophes (reading item) ≤ 1 →
  item ∉ filteredItems toLowerCase selectedGenre searchQuery SearchReading items.
Proof.
  intros Hq Hfew. unfold filteredItems.
  destruct (trim searchQuery) as [|c q]; [done|].
  intros [Hm _]%list_elem_of_filter. revert Hm.
  unfold matchesSearch, matchOkurigana.
  by rewrite (execAll_step true (reading item)), exec_plus_None_few.
Qed.

Lemma search_reading_needs_span_witness :
  entry "ひかる" ∉
    filteredItems (λ s, s) genreAll (utf16 "ひ") SearchReading
      [entry "ひかる"; entry "ひ'く'"; entry "'ひ'く"].
Proof.
  apply search_reading_needs_span; [by vm_compute|vm_compute; lia].
Defined.

(** ** The answer check, further *)

Lemma answerMatches_iff r u :
  answerMatches r u = true
  ↔ ∃ alt, alt ∈ split touten r ∧ trim u = extractReadingCore (trim alt).
Proof.
  split; [|intros (alt & Hin & Hu); by eapply answerMatches_intro].
  unfold answerMatches. induction (split touten r) as [|o os IH]; [done|].
  cbn. rewrite orb_true_iff, bool_decide_eq_true. intros [Ho|Hos].
  - exists o. split; [left|done].
  - destruct (IH Hos) as (alt & Hin & Hu). exists alt. split; [by right|done].
Qed.

Lemma split_plain sep p : sep ∉ p → split sep p = [p].
Proof.
  induction p as [|c p IH]; [done|]. intros [Hc Hp]%not_elem_of_cons.
  cbn. rewrite bool_decide_eq_false_2 by congruence. by rewrite IH.
Qed.

Lemma split_app_sep sep p rest :
  sep ∉ p → split sep (p ++ sep :: rest) = p :: split sep rest.
Proof.
  induction p as [|c p IH].
  - intros _. cbn. by rewrite bool_decide_eq_true_2.
  - intros [Hc Hp]%not_elem_of_cons. cbn.
    rewrite bool_decide_eq_false_2 by congruence. by rewrite IH.
Qed.

Lemma split_joinWith sep pieces :
  pieces ≠ [] → Forall (λ p, sep ∉ p) pieces →
  split sep (joinWith [sep] pieces) = pieces.
Proof.
  induction pieces as [|p pieces IH]; [done|]. intros _ Hp.
  apply Forall_cons in Hp as [Hp Hps]. destruct pieces as [|q pieces].
  - by apply split_plain.
  - change (joinWith [sep] (p :: q :: pieces))
      with (p ++ sep :: joinWith [sep] (q :: pieces)).
    by rewrite split_app_sep, IH.
Qed.

(** X17. The verdict depends on the submitted text only through its trimmed
    form: white space before and after an answer never changes it. *)
Theorem answerMatches_trims_input (correctReading userAnswer : jstring) :
  answerMatches correctReading (trim userAnswer)
  = answerMatches correctReading userAnswer.
Proof. unfold answerMatches. by rewrite trim_idempotent. Qed.

(** X18. Every alternative of a reading that carries no emphasis is accepted as
    it is written, wherever it stands among the alternatives and whatever
    white space surrounds it in the reading or in the answer. *)
Theorem answerMatches_plain_alternative (alts : list jstring) (alt : jstring) :
  Forall (λ a, touten ∉ a) alts → alt ∈ alts → apostrophe ∉ alt →
  answerMatches (joinWith [touten] alts) alt = true.
Proof.
  intros Hsep Hin Hplain. apply (answerMatches_intro _ _ alt).
  - rewrite split_joinWith; [done| |done]. by destruct alts; [apply elem_of_nil in Hin|].
  - symmetry. apply extractReadingCore_id. rewrite apostrophes_none; [lia|].
    destruct (trim_decompose alt) as (w1 & w2 & _ & _ & Halt).
    intros Ha. apply Hplain. rewrite Halt, !elem_of_app. auto.
Qed.

Lemma answerMatches_plain_alternative_witness :
  answerMatches (joinWith [touten] [utf16 "うつく'しい'"; utf16 " ひかる"; utf16 "てる"])
    (utf16 " ひかる") = true.
Proof.
  apply answerMatches_plain_alternative.
  - apply (bool_decide_unpack _). vm_compute. exact I.
  - apply list_elem_of_further, list_elem_of_here.
  - by_evaluation.
Defined.

(** X19. A blank answer is judged correct exactly when the core of some
    alternative of the reading is empty: an alternative that is all
    emphasis, or an empty reading. The submit button is disabled for a blank
    answer, the Enter key of the input is not. *)
Theorem answerMatches_blank (correctReading userAnswer : jstring) :
  trim userAnswer = [] →
  (answerMatches correctReading userAnswer = true
   ↔ ∃ alt, alt ∈ split touten correctReading ∧ extractReadingCore (trim alt) = []).
Proof.
  intros Hblank. rewrite answerMatches_iff, Hblank.
  split; intros (alt & Hin & Hu); exists alt; by split.
Qed.

Lemma answerMatches_blank_witness :
  answerMatches (utf16 "'てる'、ひかる") (utf16 "  ") = true
  ∧ enabled Submit
      (setUserAnswer (utf16 "  ")
         (startQuiz keepOrder (loadedState [entry "'てる'、ひかる"]))) = false
  ∧ (isCorrect <$> runWith enabled (loadedState [entry "'てる'、ひかる"])
       [(plainRandomness, StartQuiz); (plainRandomness, TypeAnswer (utf16 "  "));
        (plainRandomness, PressEnter)]) = Some true.
Proof.
  split; [|by vm_compute].
  apply (answerMatches_blank (utf16 "'てる'、ひかる") (utf16 "  ")); [reflexivity|].
  exists (utf16 "'てる'"). split; [|reflexivity].
  vm_compute. apply list_elem_of_here.
Defined.

(** ** The browsing view, further *)

Lemma definedGenres_concrete genre :
  genre ∈ definedGenres → genre ≠ genreAll ∧ genre ≠ genreNone.
Proof.
  intros Hin.
  assert (Forall (λ g, g ≠ genreAll ∧ g ≠ genreNone) definedGenres) as Hall
    by by_evaluation.
  by eapply Forall_forall in Hall.
Qed.

(** X20. The no-genre view is the complement of the sixteen genre views: an entry
    of the catalog is listed under the no-genre tag exactly when it is listed
    under none of the defined genres. *)
Theorem filterByGenre_none_complement (items : list Item) (item : Item) :
  item ∈ items →
  (item ∈ filterByGenre genreNone items
   ↔ ∀ genre, genre ∈ definedGenres → item ∉ filterByGenre genre items).
Proof.
  intros Hin. unfold filterByGenre at 1.
  rewrite bool_decide_eq_false_2 by by_evaluation.
  rewrite bool_decide_eq_true_2 by done.
  rewrite list_elem_of_filter.
  assert (negb (existsb (λ genre, includes (info item) genre) definedGenres)
          ↔ ∀ genre, genre ∈ definedGenres → ¬ hasSubstring (info item) genre) as ->.
  { rewrite <-Forall_forall, <-existsb_includes. by destruct (existsb _ _). }
  split.
  - intros [Hnone _] genre Hg. destruct (definedGenres_concrete genre Hg) as [Hall Hno].
    unfold filterByGenre. rewrite !bool_decide_eq_false_2 by done.
    rewrite list_elem_of_filter. intros [Hinc _].
    apply (Hnone genre Hg), includes_spec. by destruct (includes _ _).
  - intros Hnone. split; [|done]. intros genre Hg Hsub.
    apply (Hnone genre Hg). destruct (definedGenres_concrete genre Hg) as [Hall Hno].
    unfold filterByGenre. rewrite !bool_decide_eq_false_2 by done.
    apply list_elem_of_filter. split; [|done].
    apply includes_spec in Hsub. by rewrite Hsub.
Qed.

Lemma filterByGenre_none_complement_witness :
  taggedEntry "か" "その他"
    ∈ filterByGenre genreNone [taggedEntry "ひかる" "動物"; taggedEntry "か" "その他"].
Proof.
  apply filterByGenre_none_complement; [apply list_elem_of_further, list_elem_of_here|].
  intros genre Hg. apply (bool_decide_unpack _).
  revert genre Hg. apply Forall_forall. by_evaluation.
Defined.

(** X21. The browsing view only ever selects: whatever the genre, the query and
    the search mode, the entries listed are entries of the catalog, in the
    order of the catalog. *)
Theorem filteredItems_sublist (toLowerCase : jstring → jstring)
    (selectedGenre searchQuery : jstring) (searchMode : SearchMode) (items : list Item) :
  filteredItems toLowerCase selectedGenre searchQuery searchMode items
    `sublist_of` items.
Proof.
  unfold filteredItems.
  assert (filterByGenre selectedGenre items `sublist_of` items) as Hg.
  { unfold filterByGenre. repeat case_bool_decide; [done|apply sublist_filter..]. }
  destruct (trim searchQuery); [done|].
  etrans; [apply sublist_filter|done].
Qed.

(** ** The session, further *)

Lemma generateChoices_correct_slot (sh : Shuffle) (rnd : Random01) (item : Item)
    (all : list Item) :
  snd (generateChoices sh rnd item all) < 4
  ∧ length (fst (generateChoices sh rnd item all)) = 4
  ∧ fst (generateChoices sh rnd item all) !! snd (generateChoices sh rnd item all)
    = Some (extractReadingCore (reading item)).
Proof.
  rewrite generateChoices_slots. cbn [fst snd].
  pose proof (floorTimes_lt 4 rnd) as Hlt.
  destruct (floorTimes 4 rnd) as [|[|[|[|k]]]]; [..|lia]; (split; [lia|done]).
Qed.

Lemma choicesEffect_invariants rnd old new :
  positionInvariant new →
  (mode old = mode new → quizFormat old = quizFormat new →
   currentIndex old = currentIndex new → choicesInvariant new) →
  positionInvariant (choicesEffect rnd old new)
  ∧ choicesInvariant (choicesEffect rnd old new).
Proof.
  intros Hpos Hsame. unfold choicesEffect.
  destruct (bool_decide (mode old = mode new) && bool_decide (quizFormat old = quizFormat new)
            && bool_decide (currentIndex old = currentIndex new)) eqn:Hdeps.
  - apply andb_true_iff in Hdeps as [[H1 H2]%andb_true_iff H3].
    apply bool_decide_eq_true in H1, H2, H3. auto.
  - destruct (bool_decide (mode new = QuizMode) && bool_decide (quizFormat new = ChoiceFormat))
      eqn:Hchoice.
    + apply andb_true_iff in Hchoice as [Hm%bool_decide_eq_true Hf%bool_decide_eq_true].
      destruct (quizItems new !! currentIndex new) as [item|] eqn:Hitem.
      * split; [exact Hpos|]. intros _ _.
        destruct (generateChoices_correct_slot (sortOthers rnd) (slot rnd) item
                    (quizItems new)) as (Hk & Hlen & Hslot).
        exists item, (snd (generateChoices (sortOthers rnd) (slot rnd) item (quizItems new))).
        by split_and!.
      * exfalso. apply lookup_ge_None in Hitem. specialize (Hpos Hm). lia.
    + split; [done|]. intros Hm Hf.
      by rewrite Hm, Hf, !bool_decide_eq_true_2 in Hchoice.
Qed.

Lemma choicesInvariant_frame st st' :
  mode st' = mode st → quizFormat st' = quizFormat st →
  quizItems st' = quizItems st → currentIndex st' = currentIndex st →
  choices st' = choices st → correctChoiceIndex st' = correctChoiceIndex st →
  choicesInvariant st → choicesInvariant st'.
Proof. unfold choicesInvariant. by intros -> -> -> -> -> ->. Qed.

Lemma positionInvariant_frame st st' :
  mode st' = mode st → quizItems st' = quizItems st →
  currentIndex st' = currentIndex st →
  positionInvariant st → positionInvariant st'.
Proof. unfold positionInvariant. by intros -> -> ->. Qed.

Lemma invariants_step st a st' :
  positionInvariant st → choicesInvariant st →
  stepWith enabled st a = Some st' →
  positionInvariant st' ∧ choicesInvariant st'.
Proof.
  destruct a as [rnd ev]. unfold stepWith. intros Hpos Hch.
  destruct (enabled ev st) eqn:Hen; [|done]. intros [= <-].
  destruct ev; cbn [handle]; cbn in Hen; unfold quizView, listView in Hen;
    repeat match goal with
           | H : _ && _ = true |- _ => apply andb_true_iff in H as [? ?]
           end;
    repeat match goal with
           | H : bool_decide _ = true |- _ => apply bool_decide_eq_true in H
           | H : negb _ = true |- _ => apply negb_true_iff in H
           end;
    apply choicesEffect_invariants.
  - (* StartQuiz *)
    unfold startQuiz. destruct (items st) as [[|it catalog]|]; [done| |done].
    unfold positionInvariant. cbn. intros _.
    rewrite (shuffled_perm (sortItems rnd)). cbn; lia.
  - unfold startQuiz. destruct (items st) as [[|it catalog]|]; [by intros|..|by intros].
    cbn. congruence.
  - (* BackToList *) by unfold positionInvariant.
  - by unfold choicesInvariant.
  - (* SelectFormat *) by apply (positionInvariant_frame st).
  - intros _ Hf _. by apply (choicesInvariant_frame st).
  - (* TypeAnswer *) by apply (positionInvariant_frame st).
  - intros _ _ _. by apply (choicesInvariant_frame st).
  - (* PressEnter *)
    unfold pressEnter, checkAnswer. replace (showResult st) with false. cbn [negb].
    destruct (quizItems st !! currentIndex st); [|done].
    by apply (positionInvariant_frame st).
  - intros _ _ _. unfold pressEnter, checkAnswer. replace (showResult st) with false.
    cbn [negb]. destruct (quizItems st !! currentIndex st); [|done].
    by apply (choicesInvariant_frame st).
  - (* Submit *)
    unfold checkAnswer. destruct (quizItems st !! currentIndex st); [|done].
    by apply (positionInvariant_frame st).
  - intros _ _ _. unfold checkAnswer.
    destruct (quizItems st !! currentIndex st); [|done].
    by apply (choicesInvariant_frame st).
  - (* GiveUp *)
    unfold giveUp. destruct (quizItems st !! currentIndex st); [|done].
    by apply (positionInvariant_frame st).
  - intros _ _ _. unfold giveUp.
    destruct (quizItems st !! currentIndex st); [|done].
    by apply (choicesInvariant_frame st).
  - (* ClickChoice *)
    unfold clickChoice. replace (showResult st) with false.
    by apply (positionInvariant_frame st).
  - intros _ _ _. unfold clickChoice. replace (showResult st) with false.
    by apply (choicesInvariant_frame st).
  - (* NextQuestion *)
    unfold nextQuestion. case_bool_decide as Hlt; [|by unfold positionInvariant].
    unfold positionInvariant. cbn. lia.
  - unfold nextQuestion. case_bool_decide as Hlt; [|by unfold choicesInvariant].
    cbn. lia.
Qed.

(** X22. Whatever the user does, the position of a running session stays inside
    the working set, and in the choice format the page shows four choices of
    which the one marked correct is the core of the current reading. *)
Theorem run_keeps_choices (st st' : State) (trace : list (Randomness * Event)) :
  positionInvariant st → choicesInvariant st →
  run st trace = Some st' →
  positionInvariant st' ∧ choicesInvariant st'.
Proof.
  unfold run. revert st. induction trace as [|a trace IH]; intros st Hpos Hch; cbn.
  - by intros [= <-].
  - destruct (stepWith enabled st a) as [st1|] eqn:Hstep; [|done].
    destruct (invariants_step st a st1 Hpos Hch Hstep). by apply IH.
Qed.

Lemma run_keeps_choices_witness :
  let r := plainRandomness in
  match run (loadedState [entry "か"; entry "き'る'"; entry "く"])
          [(r, StartQuiz); (r, SelectFormat ChoiceFormat); (r, ClickChoice 2);
           (r, NextQuestion)] with
  | Some st => positionInvariant st ∧ choicesInvariant st
  | None => False
  end.
Proof.
  intros r.
  destruct (run (loadedState [entry "か"; entry "き'る'"; entry "く"])
              [(r, StartQuiz); (r, SelectFormat ChoiceFormat); (r, ClickChoice 2);
               (r, NextQuestion)]) as [st|] eqn:Hrun.
  - eapply run_keeps_choices; [| |exact Hrun]; intros Hm; by vm_compute in Hm.
  - by vm_compute in Hrun.
Defined.

Lemma stepWith_spec_enabled st a st' :
  stepWith enabledBySpec st a = Some st' → stepWith enabled st a = Some st'.
Proof.
  destruct a as [rnd ev]. unfold stepWith, enabledBySpec.
  destruct (enabled ev st); cbn [andb]; [|done]. repeat case_match; done.
Qed.

Lemma runWith_spec_enabled st trace st' :
  runWith enabledBySpec st trace = Some st' → run st trace = Some st'.
Proof.
  unfold run. revert st. induction trace as [|a trace IH]; intros st; [done|]. cbn.
  destruct (stepWith enabledBySpec st a) as [st1|] eqn:Hstep; [|done].
  rewrite (stepWith_spec_enabled _ _ _ Hstep). apply IH.
Qed.

(** X23. As long as the format buttons are used only while no result is showing,
    the component counts each question once: the answers counted are those of
    the questions before the current one, and of the current one once its
    result shows; and when the last question is left, the score holds one
    answer for every entry of the working set. *)
Theorem session_counts_each_question (st st' : State)
    (trace : list (Randomness * Event)) :
  scoreInvariant st →
  runWith enabledBySpec st trace = Some st' →
  run st trace = Some st'
  ∧ scoreInvariant st'
  ∧ (enabled NextQuestion st' = true → mode (nextQuestion st') = ListMode →
     answered (score (nextQuestion st')) = length (quizItems st')).
Proof.
  intros Hinv Hrun. split; [by apply runWith_spec_enabled|].
  pose proof (scoreInvariant_runWith _ _ _ Hinv Hrun) as Hinv'.
  split; [done|]. cbn.
  intros [[Hm%bool_decide_eq_true _]%andb_true_iff Hs]%andb_true_iff.
  destruct (Hinv' Hm) as [Hlt Hans]. rewrite Hs in Hans.
  unfold nextQuestion. case_bool_decide as Hnext; [by cbn; rewrite Hm|].
  intros _. cbn. lia.
Qed.

Lemma session_counts_each_question_witness :
  let r := plainRandomness in
  match runWith enabledBySpec (loadedState [entry "か"; entry "き"])
          [(r, StartQuiz); (r, SelectFormat ChoiceFormat); (r, ClickChoice 1);
           (r, NextQuestion); (r, SelectFormat InputFormat); (r, GiveUp)] with
  | Some st => answered (score (nextQuestion st)) = 2
  | None => False
  end.
Proof.
  intros r.
  destruct (runWith enabledBySpec (loadedState [entry "か"; entry "き"])
              [(r, StartQuiz); (r, SelectFormat ChoiceFormat); (r, ClickChoice 1);
               (r, NextQuestion); (r, SelectFormat InputFormat); (r, GiveUp)])
    as [st|] eqn:Hrun.
  - assert (scoreInvariant (loadedState [entry "か"; entry "き"])) as Hinv
      by (intros Hm; by vm_compute in Hm).
    destruct (session_counts_each_question _ st _ Hinv Hrun) as (_ & _ & Hend).
    rewrite Hend.
    + by vm_compute in Hrun; injection Hrun as <-.
    + by vm_compute in Hrun; injection Hrun as <-.
    + by vm_compute in Hrun; injection Hrun as <-.
  - by vm_compute in Hrun.
Defined.

Lemma step_keeps_working_set st rnd ev st' :
  stepWith enabled st (rnd, ev) = Some st' → ev ≠ StartQuiz →
  quizItems st' = quizItems st ∧ currentIndex st ≤ currentIndex st'.
Proof.
  unfold stepWith. destruct (enabled ev st); [|done]. intros [= <-] Hev.
  destruct (choicesEffect_session rnd st (handle rnd ev st)) as (_ & -> & -> & _).
  destruct ev; cbn [handle]; [done|done..| | | | | | |].
  - done.
  - done.
  - unfold pressEnter, checkAnswer, nextQuestion, backToList.
    repeat case_match; cbn; split; done || lia.
  - unfold checkAnswer. by case_match.
  - unfold giveUp. by case_match.
  - unfold clickChoice. by case_match.
  - unfold nextQuestion. case_match; cbn; split; done || lia.
Qed.

(** X24. Between two starts the working set is fixed and the position never goes
    back: no action of a session but [startQuiz] replaces an entry, reorders
    the set or returns to an earlier question. *)
Theorem run_keeps_working_set (st st' : State) (trace : list (Randomness * Event)) :
  Forall (λ a, snd a ≠ StartQuiz) trace →
  run st trace = Some st' →
  quizItems st' = quizItems st ∧ currentIndex st ≤ currentIndex st'.
Proof.
  unfold run. intros Htrace. revert st.
  induction Htrace as [|[rnd ev] trace Hev _ IH]; intros st; cbn [runWith].
  - by intros [= <-].
  - destruct (stepWith enabled st (rnd, ev)) as [st1|] eqn:Hstep; [|done].
    intros Hrun. destruct (step_keeps_working_set _ _ _ _ Hstep Hev) as [Hq Hi].
    destruct (IH _ Hrun) as [Hq' Hi']. split; [congruence|lia].
Qed.

Lemma run_keeps_working_set_witness :
  let r := plainRandomness in
  let st := startQuiz keepOrder (loadedState [entry "か"; entry "き"]) in
  match run st [(r, GiveUp); (r, SelectFormat ChoiceFormat); (r, ClickChoice 0);
                (r, NextQuestion)] with
  | Some st' => quizItems st' = quizItems st ∧ currentIndex st ≤ currentIndex st'
  | None => False
  end.
Proof.
  intros r st.
  destruct (run st [(r, GiveUp); (r, SelectFormat ChoiceFormat); (r, ClickChoice 0);
                    (r, NextQuestion)]) as [st'|] eqn:Hrun.
  - eapply run_keeps_working_set; [|exact Hrun].
    repeat constructor; done.
  - by vm_compute in Hrun.
Defined.

Lemma splitWhitespace_loop_blank s inRun :
  Forall isWhiteSpace s →
  filter (λ c : jstring, c ≠ []) (splitWhitespace_loop s [] inRun) = [].
Proof.
  intros Hs. revert inRun. induction Hs as [|c s Hc _ IH]; intros inRun; [done|].
  cbn [splitWhitespace_loop]. destruct (isWhiteSpace c); [|done].
  destruct inRun; [apply IH|]. rewrite filter_cons_False by auto. apply IH.
Qed.

(** X27. A search by component with a query that is not blank never lists an
    entry whose components are missing, empty or blank: it has no token to
    search. *)
Theorem search_component_needs_token (toLowerCase : jstring → jstring)
    (selectedGenre searchQuery : jstring) (items : list Item) (item : Item) :
  trim searchQuery ≠ [] → Forall isWhiteSpace (default [] (components item)) →
  item ∉ filteredItems toLowerCase selectedGenre searchQuery SearchComponent items.
Proof.
  intros Hq Hblank. unfold filteredItems.
  destruct (trim searchQuery) as [|c q]; [done|].
  intros [Hm _]%list_elem_of_filter. revert Hm.
  unfold matchesSearch, splitWhitespace.
  by rewrite splitWhitespace_loop_blank.
Qed.

Lemma search_component_needs_token_witness :
  entry "ひかる" ∉
    filteredItems (λ s, s) genreAll (utf16 "日") SearchComponent
      [entry "ひかる"; taggedEntry "も" "植物・藻類"].
Proof.
  apply search_component_needs_token; [by vm_compute|constructor].
Defined.

(** ** The word cards *)

Lemma handleCardClick_elem_of (k : jstring) (it : Item) (revealed : gset jstring) :
  k ∈ handleCardClick true it revealed
  ↔ (k = cardKey it ∧ k ∉ revealed) ∨ (k ≠ cardKey it ∧ k ∈ revealed).
Proof.
  unfold handleCardClick. cbn [negb].
  destruct (decide (cardKey it ∈ revealed)) as [Hin|Hin].
  - rewrite (bool_decide_eq_true_2 _ Hin), elem_of_difference, elem_of_singleton.
    destruct (decide (k = cardKey it)) as [->|]; tauto.
  - rewrite (bool_decide_eq_false_2 _ Hin), elem_of_union, elem_of_singleton.
    destruct (decide (k = cardKey it)) as [->|]; tauto.
Qed.

(** X25. In the study mode a click on a card flips the reading of exactly the
    cards that share its key (its file name, or its image location when it
    has no file name), so a second click undoes the first; outside the study
    mode a click changes nothing. *)
Theorem handleCardClick_flips (it other : Item) (revealed : gset jstring) :
  readingShown true (handleCardClick true it revealed) other
  = (if bool_decide (cardKey other = cardKey it)
     then negb (readingShown true revealed other)
     else readingShown true revealed other)
  ∧ handleCardClick true it (handleCardClick true it revealed) = revealed
  ∧ handleCardClick false it revealed = revealed.
Proof.
  split_and!; [| |done].
  - unfold readingShown. cbn [negb orb].
    pose proof (handleCardClick_elem_of (cardKey other) it revealed) as Helem.
    destruct (decide (cardKey other = cardKey it)) as [Hkey|Hkey].
    + rewrite (bool_decide_eq_true_2 _ Hkey).
      destruct (decide (cardKey other ∈ revealed)) as [Hin|Hin].
      * rewrite (bool_decide_eq_true_2 _ Hin), bool_decide_eq_false_2; [done|tauto].
      * rewrite (bool_decide_eq_false_2 _ Hin), bool_decide_eq_true_2; [done|tauto].
    + rewrite (bool_decide_eq_false_2 _ Hkey). apply bool_decide_ext. tauto.
  - apply set_eq. intros k. rewrite !handleCardClick_elem_of.
    destruct (decide (k = cardKey it)), (decide (k ∈ revealed)); tauto.
Qed.

(** ** The four choices, further *)




Example utf16_hikaru : utf16 "'てる'、ひかる" =
  [39; 0x3066; 0x308B; 39; 0x3001; 0x3072; 0x304B; 0x308B]%N.
Proof. reflexivity. Qed.

Example trim_ex : trim (utf16 "  a b 　") = utf16 "a b".
Proof. reflexivity. Qed.

Example split_ex : split touten (utf16 "'てる'、ひかる") = [utf16 "'てる'"; utf16 "ひかる"].
Proof. reflexivity. Qed.

Example render_ex :
  formatReadingWithOkurigana (utf16 "うつく'しい'、は'え'") =
  [ {| text := utf16 "うつく"; emphasized := false |};
    {| text := utf16 "しい"; emphasized := true |};
    {| text := utf16 "、は"; emphasized := false |};
    {| text := utf16 "え"; emphasized := true |} ].
Proof. reflexivity. Qed.

Example core_ex : extractReadingCore (utf16 "うつく'しい'、は'え'x'") = utf16 "うつく、はx'".
Proof. reflexivity. Qed.

Example scenario1 :
  toItem Level7 (filenameField (utf16 <$> ["path"; "reading"; "meaning"; "additional_info"; "components"]%string))
    (rowObject (utf16 <$> ["path"; "reading"; "meaning"; "additional_info"; "components"]%string)
       (utf16 "img1.png,'てる'、ひかる,,動物,日 光")) =
  Returned {| filename := Some (utf16 "img1.png"); reading := utf16 "'てる'、ひかる";
              meaning := Some []; imageUrl := utf16 "/kanji/level-7/img1.png";
              additionalInfo := Some (utf16 "動物"); components := Some (utf16 "日 光") |}.
Proof. vm_compute. reflexivity. Qed.

Example parseCatalog_scenario1 :
  parseCatalog (λ s, s) Level7
    (utf16 "path,reading,meaning,additional_info,components" ++ [13; 10]%N
       ++ utf16 "img1.png,'てる'、ひかる,,動物,日 光" ++ [10]%N)
  = Returned [ {| filename := Some (utf16 "img1.png"); reading := utf16 "'てる'、ひかる";
                  meaning := Some []; imageUrl := utf16 "/kanji/level-7/img1.png";
                  additionalInfo := Some (utf16 "動物");
                  components := Some (utf16 "日 光") |} ].
Proof. by vm_compute. Qed.

Example parseCSVLine_quoted :
  parseCSVLine (utf16 "a.png,") ++ parseCSVLine (34%N :: utf16 "x,y" ++ 34%N :: utf16 ",z")
  = [utf16 "a.png"; []; utf16 "x,y"; utf16 "z"].
Proof. reflexivity. Qed.

Example search_component :
  filteredItems (λ s, s) genreAll (utf16 " 光 ") SearchComponent
    [ {| filename := None; reading := utf16 "ひかる"; meaning := None; imageUrl := [];
         additionalInfo := None; components := Some (utf16 "日 光") |};
      {| filename := None; reading := utf16 "も"; meaning := None; imageUrl := [];
         additionalInfo := None; components := Some (utf16 "艹 澡") |} ]
  = [ {| filename := None; reading := utf16 "ひかる"; meaning := None; imageUrl := [];
         additionalInfo := None; components := Some (utf16 "日 光") |} ].
Proof. by vm_compute. Qed.

Example search_okurigana :
  (λ it, reading it) <$>
    filteredItems (λ s, s) genreAll (utf16 "しい") SearchReading
      [entry "うつく'しい'"; entry "しい"; entry "は'え'"]
  = [utf16 "うつく'しい'"].
Proof. by vm_compute. Qed.

Example generateChoices_single_entry :
  generateChoices keepOrder drawZero (entry "か") [entry "か"]
  = ([utf16 "か"; []; []; []], 0).
Proof. reflexivity. Qed.

Example double_count_without_format_change :
  let r := plainRandomness in
  score <$> run (loadedState [entry "か"])
              [(r, StartQuiz); (r, GiveUp); (r, SelectFormat InputFormat); (r, GiveUp)]
  = Some {| correct := 0; incorrect := 2 |}.
Proof. by vm_compute. Qed.
